(** * Schema parser of realm-js ([src/js_schema.hpp])

    A shallow embedding of [realm::js::Schema<T>]: the four static functions
    [dict_for_property_array], [parse_property], [parse_object_schema] and
    [parse_schema], over a model of the host-value layer they are generic in,
    followed by the properties of the parser.

    The C++ functions throw and take their output maps by mutable reference;
    here a computation is a function from the current maps to a result (a
    value or the exception thrown) and the maps as they are at that point, so
    what a caller observes in the maps after an exception is part of the
    model. *)

From stdpp Require Import gmap strings list fin_maps pretty.

Local Open Scope string_scope.
#[local] Set Warnings "-register-all".

(** ** Exceptions and results *)

(** The two exception classes that occur: [std::runtime_error], thrown by the
    parser itself, and [std::invalid_argument], thrown by the validated
    accessors of the host layer. *)
Inductive Exception : Type :=
| runtime_error (what : string)
| invalid_argument (what : string).

Inductive Result (A : Type) : Type :=
| Ok (a : A)
| Throw (e : Exception).
Arguments Ok {A} a.
Arguments Throw {A} e.

(** A computation over caller-owned state [S]: the state is returned on both
    outcomes, as a C++ reference parameter keeps its mutations when the callee
    throws. *)
Definition M (S A : Type) : Type := S → Result A * S.

Definition ret {S A} (a : A) : M S A := λ s, (Ok a, s).
Definition throw {S A} (e : Exception) : M S A := λ s, (Throw e, s).
Definition bind {S A B} (m : M S A) (f : A → M S B) : M S B :=
  λ s, match m s with
       | (Ok a, s') => f a s'
       | (Throw e, s') => (Throw e, s')
       end.
(** A host call: it may throw, it never touches the maps. *)
Definition lift {S A} (r : Result A) : M S A := λ s, (r, s).
Definition modify {S} (f : S → S) : M S unit := λ s, (Ok tt, f s).

Declare Scope schema_scope.
Delimit Scope schema_scope with schema.
Notation "x <- c1 ;; c2" := (bind c1 (λ x, c2))
  (at level 100, c1 at next level, right associativity) : schema_scope.
Local Open Scope schema_scope.

(** ** Host values *)

(** Modelled from the spec: the host-value layer of [js_types.hpp]
    ([Value<T>], [Object<T>], [Protected<T>]) is not part of the sources; the
    parser only uses the capabilities listed as its external interface: value
    introspection, validated coercion with named-field error messages,
    named and indexed field access, order-preserving field enumeration,
    validated length and empty-object creation.

    An object is a sequence of named fields in insertion order, the first
    binding of a name being the live one; an array has indexed elements and a
    length; a function is an object that is also a constructor. *)
Inductive JSValue : Type :=
| JSUndefined
| JSNull
| JSBoolean (b : bool)
| JSNumber (n : Z)
| JSString (s : string)
| JSObject (fields : list (string * JSValue))
| JSArray (elems : list JSValue)
| JSFunction (fields : list (string * JSValue)).

(** [Protected<TValue>] and [Protected<TFunction>] keep a host value alive; the
    held value is the value itself. *)
Definition Protected (v : JSValue) : JSValue := v.

Fixpoint assoc (key : string) (fields : list (string * JSValue)) : JSValue :=
  match fields with
  | [] => JSUndefined
  | (k, v) :: rest => if k =? key then v else assoc key rest
  end.

Fixpoint assoc_set (key : string) (value : JSValue)
    (fields : list (string * JSValue)) : list (string * JSValue) :=
  match fields with
  | [] => [(key, value)]
  | (k, v) :: rest =>
      if k =? key then (k, value) :: rest else (k, v) :: assoc_set key value rest
  end.

(** Every name once, in the order of its first occurrence. *)
Fixpoint unique_names (names : list string) : list string :=
  match names with
  | [] => []
  | k :: rest => k :: filter (λ k', k' ≠ k) (unique_names rest)
  end.

(** Modelled from the spec: [Value<T>], the introspection and validated
    coercion of single values. A coercion checks the kind of the value and
    throws [std::invalid_argument] when it is another. *)
Module Value.
Definition is_undefined (v : JSValue) : bool :=
  match v with JSUndefined => true | _ => false end.
Definition is_boolean (v : JSValue) : bool :=
  match v with JSBoolean _ => true | _ => false end.
Definition is_number (v : JSValue) : bool :=
  match v with JSNumber _ => true | _ => false end.
Definition is_string (v : JSValue) : bool :=
  match v with JSString _ => true | _ => false end.
Definition is_object (v : JSValue) : bool :=
  match v with JSObject _ | JSArray _ | JSFunction _ => true | _ => false end.
Definition is_array (v : JSValue) : bool :=
  match v with JSArray _ => true | _ => false end.
Definition is_constructor (v : JSValue) : bool :=
  match v with JSFunction _ => true | _ => false end.

(** A handle is valid unless it is the null handle [{}] a [TObject] or
    [TFunction] variable starts as. *)
Definition is_valid (handle : option JSValue) : bool :=
  match handle with Some _ => true | None => false end.

Definition to_constructor (v : JSValue) : JSValue := v.

(** The message of a failed coercion names the field when one is given. *)
Definition type_error (name : option string) (type : string) : Exception :=
  invalid_argument
    (match name with
     | Some n => "'" +:+ n +:+ "'"
     | None => "JS value"
     end +:+ " must be of type: " +:+ type).

Definition validated_to_boolean (v : JSValue) (name : option string) : Result bool :=
  match v with
  | JSBoolean b => Ok b
  | _ => Throw (type_error name "boolean")
  end.
Definition validated_to_number (v : JSValue) (name : option string) : Result Z :=
  match v with
  | JSNumber n => Ok n
  | _ => Throw (type_error name "number")
  end.
Definition validated_to_string (v : JSValue) (name : option string) : Result string :=
  match v with
  | JSString s => Ok s
  | _ => Throw (type_error name "string")
  end.
Definition validated_to_object (v : JSValue) (name : option string) : Result JSValue :=
  if is_object v then Ok v else Throw (type_error name "object").
End Value.

(** Modelled from the spec: [Object<T>], field access on objects. *)
Module Object.
Definition create_empty : JSValue := JSObject [].

(** Named lookup; an absent field reads as undefined. An array answers
    named lookups for its length only: its elements are reached by index,
    which is all the parser does with an array. *)
Definition get_property (object : JSValue) (key : string) : JSValue :=
  match object with
  | JSObject fields | JSFunction fields => assoc key fields
  | JSArray elems =>
      if key =? "length" then JSNumber (Z.of_nat (length elems)) else JSUndefined
  | _ => JSUndefined
  end.

(** Indexed lookup; on an object that is not an array the index is the
    field named by its decimal numeral. *)
Definition get_property_at (object : JSValue) (index : nat) : JSValue :=
  match object with
  | JSArray elems => nth index elems JSUndefined
  | _ => get_property object (pretty index)
  end.

Definition set_property (object : JSValue) (key : string) (value : JSValue) : JSValue :=
  match object with
  | JSObject fields => JSObject (assoc_set key value fields)
  | JSFunction fields => JSFunction (assoc_set key value fields)
  | _ => object
  end.

Definition get_property_names (object : JSValue) : list string :=
  match object with
  | JSObject fields | JSFunction fields => unique_names (fields.*1)
  | JSArray elems => pretty <$> seq 0 (length elems)
  | _ => []
  end.

(** The length field, validated as a number and converted to the [uint32_t]
    the callers count with. *)
Definition validated_get_length (object : JSValue) : Result nat :=
  match Value.validated_to_number (get_property object "length") None with
  | Ok n => Ok (Z.to_nat n)
  | Throw e => Throw e
  end.

(** The validated getters coerce the field and, when the caller passes a
    message, replace the coercion failure's message by it. *)
Definition with_message {A} (message : option string) (r : Result A) : Result A :=
  match r, message with
  | Throw (invalid_argument _), Some m => Throw (invalid_argument m)
  | _, _ => r
  end.

Definition validated_get_string (object : JSValue) (key : string) : Result string :=
  Value.validated_to_string (get_property object key) (Some key).
Definition validated_get_object (object : JSValue) (key : string)
    (message : option string) : Result JSValue :=
  with_message message (Value.validated_to_object (get_property object key) (Some key)).
Definition validated_get_object_at (object : JSValue) (index : nat) : Result JSValue :=
  Value.validated_to_object (get_property_at object index) None.
End Object.

(** ** The schema model *)

(** Modelled from the spec: [property.hpp], [object_schema.hpp] and
    [schema.hpp] of the object store are not part of the sources. The property
    kinds are the nine the parser assigns; a default-constructed [Property]
    has empty strings and all three flags false. *)
Inductive PropertyType : Type :=
| PropertyTypeInt
| PropertyTypeBool
| PropertyTypeString
| PropertyTypeData
| PropertyTypeDate
| PropertyTypeFloat
| PropertyTypeDouble
| PropertyTypeObject
| PropertyTypeArray.

Module Property.
Record t : Type := mk {
  name : string;
  type : PropertyType;
  object_type : string;
  is_primary : bool;
  is_indexed : bool;
  is_nullable : bool
}.

(** [Property prop;]: the kind is indeterminate until assigned, and every
    path of [parse_property] that returns assigns it; [PropertyTypeInt]
    stands for the indeterminate kind. *)
Definition default : t := mk "" PropertyTypeInt "" false false false.

Definition set_name (v : string) (p : t) : t :=
  mk v (type p) (object_type p) (is_primary p) (is_indexed p) (is_nullable p).
Definition set_type (v : PropertyType) (p : t) : t :=
  mk (name p) v (object_type p) (is_primary p) (is_indexed p) (is_nullable p).
Definition set_object_type (v : string) (p : t) : t :=
  mk (name p) (type p) v (is_primary p) (is_indexed p) (is_nullable p).
Definition set_is_primary (v : bool) (p : t) : t :=
  mk (name p) (type p) (object_type p) v (is_indexed p) (is_nullable p).
Definition set_is_indexed (v : bool) (p : t) : t :=
  mk (name p) (type p) (object_type p) (is_primary p) v (is_nullable p).
Definition set_is_nullable (v : bool) (p : t) : t :=
  mk (name p) (type p) (object_type p) (is_primary p) (is_indexed p) v.
End Property.
Abbreviation Property := Property.t.

(** [ObjectDefaults], [ObjectDefaultsMap] and [ConstructorMap] are
    [std::map]s keyed by name. *)
Abbreviation ObjectDefaults := (gmap string JSValue).
Abbreviation ObjectDefaultsMap := (gmap string (gmap string JSValue)).
Abbreviation ConstructorMap := (gmap string JSValue).

(** [std::map::emplace]: inserts unless the key is already present. *)
Definition emplace {V} (key : string) (value : V) (m : gmap string V) : gmap string V :=
  match m !! key with
  | Some _ => m
  | None => <[key := value]> m
  end.

(** ** [parse_property] *)

Definition default_string := "default".
Definition indexed_string := "indexed".
Definition type_string := "type".
Definition object_type_string := "objectType".
Definition optional_string := "optional".

(** Lines 78-92: the descriptor handle, the type string and the [optional]
    field. The handle stays null for a bare declaration. *)
Definition read_declaration (attributes : JSValue) (prop : Property)
    : M ObjectDefaults (option JSValue * string * Property) :=
  if Value.is_object attributes then
    property_object <- lift (Value.validated_to_object attributes None) ;;
    type <- lift (Object.validated_get_string property_object type_string) ;;
    let optional_value := Object.get_property property_object optional_string in
    prop <- (if negb (Value.is_undefined optional_value) then
               b <- lift (Value.validated_to_boolean optional_value (Some "optional")) ;;
               ret (Property.set_is_nullable b prop)
             else ret prop) ;;
    ret (Some property_object, type, prop)
  else
    type <- lift (Value.validated_to_string attributes None) ;;
    ret (None, type, prop).

(** Lines 94-136: the chain of comparisons on the type string. *)
Definition resolve_type (property_object : option JSValue) (type : string)
    (prop : Property) : M ObjectDefaults Property :=
  if type =? "bool" then ret (Property.set_type PropertyTypeBool prop)
  else if type =? "int" then ret (Property.set_type PropertyTypeInt prop)
  else if type =? "float" then ret (Property.set_type PropertyTypeFloat prop)
  else if type =? "double" then ret (Property.set_type PropertyTypeDouble prop)
  else if type =? "string" then ret (Property.set_type PropertyTypeString prop)
  else if type =? "date" then ret (Property.set_type PropertyTypeDate prop)
  else if type =? "data" then ret (Property.set_type PropertyTypeData prop)
  else if type =? "list" then
    if negb (Value.is_valid property_object) then
      throw (runtime_error "List property must specify 'objectType'")
    else
      let prop := Property.set_type PropertyTypeArray prop in
      object_type <-
        lift (Object.validated_get_string (default JSUndefined property_object)
                object_type_string) ;;
      ret (Property.set_object_type object_type prop)
  else
    let prop := Property.set_type PropertyTypeObject prop in
    let prop := Property.set_is_nullable true prop in
    (* The type could either be 'object' or the name of another object type
       in the same schema. *)
    if type =? "object" then
      if negb (Value.is_valid property_object) then
        throw (runtime_error "Object property must specify 'objectType'")
      else
        object_type <-
          lift (Object.validated_get_string (default JSUndefined property_object)
                  object_type_string) ;;
        ret (Property.set_object_type object_type prop)
    else ret (Property.set_object_type type prop).

(** Lines 138-148: the [default] and [indexed] fields of a descriptor. *)
Definition read_descriptor_fields (property_object : option JSValue) (prop : Property)
    : M ObjectDefaults Property :=
  if Value.is_valid property_object then
    let object := default JSUndefined property_object in
    let default_value := Object.get_property object default_string in
    _ <- (if negb (Value.is_undefined default_value) then
            modify (emplace (Property.name prop) (Protected default_value))
          else ret tt) ;;
    let indexed_value := Object.get_property object indexed_string in
    if negb (Value.is_undefined indexed_value) then
      b <- lift (Value.validated_to_boolean indexed_value None) ;;
      ret (Property.set_is_indexed b prop)
    else ret prop
  else ret prop.

Definition parse_property (attributes : JSValue) (property_name : string)
    : M ObjectDefaults Property :=
  let prop := Property.set_name property_name Property.default in
  declaration <- read_declaration attributes prop ;;
  let '(property_object, type, prop) := declaration in
  prop <- resolve_type property_object type prop ;;
  read_descriptor_fields property_object prop.

(** ** [parse_object_schema] *)

Module ObjectSchema.
Record t : Type := mk {
  name : string;
  properties : list Property;
  primary_key : string
}.

Definition default : t := mk "" [] "".

Definition set_name (v : string) (o : t) : t := mk v (properties o) (primary_key o).
Definition set_properties (v : list Property) (o : t) : t := mk (name o) v (primary_key o).
Definition set_primary_key (v : string) (o : t) : t := mk (name o) (properties o) v.

(** Modelled from the spec: [property_for_name] of [object_schema.hpp] is not
    part of the sources; the primary key "must name an existing property",
    found here as the first property of that name, with its position. *)
Definition property_for_name (o : t) (n : string) : option (nat * Property) :=
  list_find (λ p, Property.name p = n) (properties o).
Definition primary_key_property (o : t) : option (nat * Property) :=
  property_for_name o (primary_key o).
End ObjectSchema.
Abbreviation ObjectSchema := ObjectSchema.t.

Definition name_string := "name".
Definition primary_string := "primaryKey".
Definition properties_string := "properties".
Definition schema_string := "schema".

(** A [for] loop over [xs] whose body updates the local variables [acc]. *)
Fixpoint for_each {S X Acc} (xs : list X) (body : X → Acc → M S Acc) (acc : Acc)
    : M S Acc :=
  match xs with
  | [] => ret acc
  | x :: rest => acc' <- body x acc ;; for_each rest body acc'
  end.

(** A call that works on a local variable [l] of the caller, passed by
    reference: the caller's maps are not involved, and [l] is gone with the
    caller's frame when the call throws. *)
Definition with_local {S L A} (m : M L A) (l : L) : M S (A * L) :=
  λ s, match m l with
       | (Ok a, l') => (Ok (a, l'), s)
       | (Throw e, _) => (Throw e, s)
       end.

(** [object_schema.properties.emplace_back(parse_property(..., object_defaults))] *)
Definition emplace_back_property {S} (attributes : JSValue) (property_name : string)
    (locals : ObjectSchema * ObjectDefaults) : M S (ObjectSchema * ObjectDefaults) :=
  let '(object_schema, object_defaults) := locals in
  parsed <- with_local (parse_property attributes property_name) object_defaults ;;
  let '(prop, object_defaults) := parsed in
  ret (ObjectSchema.set_properties
         (ObjectSchema.properties object_schema ++ [prop])%list object_schema,
       object_defaults).

(** The two loops over the [properties] value: by index over an array, by
    enumerated name over any other object. *)
Definition parse_properties {S} (properties_object : JSValue)
    (locals : ObjectSchema * ObjectDefaults) : M S (ObjectSchema * ObjectDefaults) :=
  if Value.is_array properties_object then
    length <- lift (Object.validated_get_length properties_object) ;;
    for_each (seq 0 length)
      (λ i locals,
         property_object <- lift (Object.validated_get_object_at properties_object i) ;;
         property_name <- lift (Object.validated_get_string property_object name_string) ;;
         emplace_back_property property_object property_name locals)
      locals
  else
    let property_names := Object.get_property_names properties_object in
    for_each property_names
      (λ property_name locals,
         let property_value := Object.get_property properties_object property_name in
         emplace_back_property property_value property_name locals)
      locals.

(** The two output maps of the parser, [defaults] and [constructors]. *)
Abbreviation Maps := (ObjectDefaultsMap * ConstructorMap)%type.

(** Lines 160-164: a constructor is remembered and stands for its [schema]
    field. The handle stays null for a plain declaration. *)
Definition resolve_constructor (object_schema_object : JSValue)
    : M Maps (option JSValue * JSValue) :=
  if Value.is_constructor object_schema_object then
    let object_constructor := Value.to_constructor object_schema_object in
    object_schema_object <-
      lift (Object.validated_get_object object_constructor schema_string
              (Some "Realm object constructor must have a 'schema' property.")) ;;
    ret (Some object_constructor, object_schema_object)
  else ret (None, object_schema_object).

(** Lines 166-185: the name and the properties. *)
Definition parse_name_and_properties (object_schema_object : JSValue)
    : M Maps (ObjectSchema * ObjectDefaults) :=
  let object_defaults : ObjectDefaults := ∅ in
  let object_schema := ObjectSchema.default in
  name <- lift (Object.validated_get_string object_schema_object name_string) ;;
  let object_schema := ObjectSchema.set_name name object_schema in
  properties_object <-
    lift (Object.validated_get_object object_schema_object properties_string
            (Some "ObjectSchema must have a 'properties' object.")) ;;
  parse_properties properties_object (object_schema, object_defaults).

(** Lines 187-195: the primary key. *)
Definition resolve_primary_key (object_schema_object : JSValue)
    (object_schema : ObjectSchema) : M Maps ObjectSchema :=
  let primary_value := Object.get_property object_schema_object primary_string in
  if negb (Value.is_undefined primary_value) then
    primary_key <- lift (Value.validated_to_string primary_value None) ;;
    let object_schema := ObjectSchema.set_primary_key primary_key object_schema in
    match ObjectSchema.primary_key_property object_schema with
    | None =>
        throw (runtime_error ("Missing primary key property '"
                              +:+ ObjectSchema.primary_key object_schema +:+ "'"))
    | Some (i, property) =>
        ret (ObjectSchema.set_properties
               (<[i := Property.set_is_primary true property]>
                  (ObjectSchema.properties object_schema))
               object_schema)
    end
  else ret object_schema.

(** Lines 197-204: the constructor, if any, and the defaults go into the
    caller's maps. *)
Definition commit (object_constructor : option JSValue) (object_schema : ObjectSchema)
    (object_defaults : ObjectDefaults) : M Maps ObjectSchema :=
  _ <- (if Value.is_valid object_constructor then
          modify (λ maps : Maps,
                    (maps.1,
                     emplace (ObjectSchema.name object_schema)
                       (Protected (default JSUndefined object_constructor)) maps.2))
        else ret tt) ;;
  _ <- modify (λ maps : Maps,
                 (emplace (ObjectSchema.name object_schema) object_defaults maps.1,
                  maps.2)) ;;
  ret object_schema.

Definition parse_object_schema (object_schema_object : JSValue) : M Maps ObjectSchema :=
  resolved <- resolve_constructor object_schema_object ;;
  let '(object_constructor, object_schema_object) := resolved in
  locals <- parse_name_and_properties object_schema_object ;;
  let '(object_schema, object_defaults) := locals in
  object_schema <- resolve_primary_key object_schema_object object_schema ;;
  commit object_constructor object_schema object_defaults.

(** ** [parse_schema] *)

(** Modelled from the spec: [realm::Schema] of [schema.hpp] is not part of the
    sources; a Schema is the ordered sequence of its ObjectSchemas. *)
Definition Schema : Type := list ObjectSchema.
Definition make_Schema (types : list ObjectSchema) : Schema := types.

Definition parse_schema (schema_object : JSValue) : M Maps Schema :=
  let schema : list ObjectSchema := [] in
  length <- lift (Object.validated_get_length schema_object) ;;
  schema <-
    for_each (seq 0 length)
      (λ i schema,
         object_schema_object <- lift (Object.validated_get_object_at schema_object i) ;;
         object_schema <- parse_object_schema object_schema_object ;;
         ret (schema ++ [object_schema])%list)
      schema ;;
  ret (make_Schema schema).

(** ** [dict_for_property_array] *)

Definition dict_for_property_array (object_schema : ObjectSchema) (array : JSValue)
    : Result JSValue :=
  let count := length (ObjectSchema.properties object_schema) in
  match Object.validated_get_length array with
  | Throw e => Throw e
  | Ok array_length =>
      if negb (count =? array_length)%nat then
        Throw (runtime_error "Array must contain values for all object properties")
      else
        let dict := Object.create_empty in
        Ok (foldl
              (λ dict i,
                 let value := Object.get_property_at array i in
                 Object.set_property dict
                   (Property.name (nth i (ObjectSchema.properties object_schema)
                                     Property.default))
                   value)
              dict (seq 0 count))
  end.

(** * Vocabulary of the statements *)

(** The type keywords [resolve_type] compares against, in source order. *)
Definition scalar_keywords : list (string * PropertyType) :=
  [("bool", PropertyTypeBool); ("int", PropertyTypeInt); ("float", PropertyTypeFloat);
   ("double", PropertyTypeDouble); ("string", PropertyTypeString);
   ("date", PropertyTypeDate); ("data", PropertyTypeData)].
Definition type_keywords : list string := (scalar_keywords.*1 ++ ["list"; "object"])%list.

(** The type string a declaration carries: the declaration itself in the bare
    form, its [type] field in the descriptor form. *)
Definition declares (attributes : JSValue) (type : string) : Prop :=
  if Value.is_object attributes
  then Object.get_property attributes type_string = JSString type
  else attributes = JSString type.

Definition boolean_or_absent (v : JSValue) : Prop :=
  v = JSUndefined ∨ ∃ b, v = JSBoolean b.

(** The [optional] and [indexed] fields of a declaration, where present, are
    booleans (a bare declaration has neither). *)
Definition flags_well_typed (attributes : JSValue) : Prop :=
  boolean_or_absent (Object.get_property attributes optional_string) ∧
  boolean_or_absent (Object.get_property attributes indexed_string).

(** The value of a boolean field that defaults to false. *)
Definition flag (v : JSValue) : bool :=
  match v with JSBoolean b => b | _ => false end.

(** What [resolve_type] has done when it returns. *)
Inductive resolved (property_object : option JSValue) (t : string) (prop : Property)
    : Property → Prop :=
| resolved_scalar K :
    (t, K) ∈ scalar_keywords →
    resolved property_object t prop (Property.set_type K prop)
| resolved_list object s :
    t = "list" → property_object = Some object →
    Object.get_property object object_type_string = JSString s →
    resolved property_object t prop
      (Property.set_object_type s (Property.set_type PropertyTypeArray prop))
| resolved_object object s :
    t = "object" → property_object = Some object →
    Object.get_property object object_type_string = JSString s →
    resolved property_object t prop
      (Property.set_object_type s
         (Property.set_is_nullable true (Property.set_type PropertyTypeObject prop)))
| resolved_reference :
    t ∉ type_keywords →
    resolved property_object t prop
      (Property.set_object_type t
         (Property.set_is_nullable true (Property.set_type PropertyTypeObject prop))).

(** The names [parse_object_schema] reads: the declaration, or the [schema]
    field of a constructor, and its [properties] field. *)
Definition schema_descriptor (object_schema_object : JSValue) : JSValue :=
  if Value.is_constructor object_schema_object
  then Object.get_property object_schema_object schema_string
  else object_schema_object.
Definition declared_properties (object_schema_object : JSValue) : JSValue :=
  Object.get_property (schema_descriptor object_schema_object) properties_string.

(** One declared property in both shapes: its name, the descriptor an ordered
    list holds for it, and the value a name-keyed mapping holds under its
    name. *)
Abbreviation Entry := (string * JSValue * JSValue)%type.

Definition listed_properties (entries : list Entry) : JSValue :=
  JSArray ((λ e, e.1.2) <$> entries).
Definition keyed_properties (entries : list Entry) : JSValue :=
  JSObject ((λ e, (e.1.1, e.2)) <$> entries).

(** The descriptor carries the name, and the value of the mapping is either a
    descriptor with the same [type], [optional], [objectType], [default] and
    [indexed] fields, or the bare type string of a descriptor that has none of
    the optional fields (the keywords list and object have no bare form). *)
Definition same_declaration (e : Entry) : Prop :=
  let '(n, descriptor, value) := e in
  Value.is_object descriptor = true ∧
  Object.get_property descriptor name_string = JSString n ∧
  ((Value.is_object value = true ∧
    Forall (λ k, Object.get_property value k = Object.get_property descriptor k)
      [type_string; optional_string; object_type_string; default_string;
       indexed_string]) ∨
   (∃ t, value = JSString t ∧ t ≠ "list" ∧ t ≠ "object" ∧
         Object.get_property descriptor type_string = JSString t ∧
         Forall (λ k, Object.get_property descriptor k = JSUndefined)
           [optional_string; default_string; indexed_string])).

(** The body of the loop of [parse_schema], on the element itself. *)
Definition parse_element (element : JSValue) (schema : list ObjectSchema)
    : M Maps (list ObjectSchema) :=
  object_schema_object <- lift (Value.validated_to_object element None) ;;
  object_schema <- parse_object_schema object_schema_object ;;
  ret (schema ++ [object_schema])%list.

(** The default a declaration supplies: the [default] field of a descriptor,
    unless it is undefined. A bare declaration supplies none. *)
Definition declared_default (attributes : JSValue) : option JSValue :=
  if Value.is_object attributes then
    let default_value := Object.get_property attributes default_string in
    if Value.is_undefined default_value then None else Some default_value
  else None.

(** A field that is present and is not a boolean. *)
Definition not_a_boolean (v : JSValue) : Prop :=
  Value.is_undefined v = false ∧ Value.is_boolean v = false.

(** A computation whose outcome, value or exception, is the same from every
    state: it may write to the state, it does not read it. *)
Definition state_independent {St A} (m : M St A) : Prop :=
  ∀ s1 s2, (m s1).1 = (m s2).1.

(** A declaration with the keyword list or object names its target: its
    [objectType] field is a string (so it is a descriptor). Any other type
    string needs nothing more. *)
Definition names_target (attributes : JSValue) (t : string) : Prop :=
  t = "list" ∨ t = "object" →
  ∃ X, Object.get_property attributes object_type_string = JSString X.

(** A declaration that is in order: it carries a type string, names its
    target where the type asks for one, and its [optional] and [indexed]
    fields, where present, are booleans. *)
Definition well_formed_declaration (attributes : JSValue) : Prop :=
  ∃ t, declares attributes t ∧ names_target attributes t ∧
       flags_well_typed attributes.

(** ** Declarations used as examples *)

(** A constructor whose schema names a primary key it does not declare. *)
Definition dog_without_id : JSValue :=
  JSFunction
    [("schema",
      JSObject [("name", JSString "Dog");
                ("properties",
                 JSObject [("age", JSObject [("type", JSString "int");
                                             ("default", JSNumber 1)])]);
                ("primaryKey", JSString "id")])].

(** A declaration with a primary key among its properties. *)
Definition dog_with_id : JSValue :=
  JSObject [("name", JSString "Dog");
            ("properties", JSObject [("id", JSString "int"); ("name", JSString "string")]);
            ("primaryKey", JSString "id")].

(** A declaration whose ordered list of properties repeats a name. *)
Definition twice_a : JSValue :=
  JSObject [("name", JSString "T");
            ("properties",
             JSArray [JSObject [("name", JSString "a"); ("type", JSString "int")];
                      JSObject [("name", JSString "a"); ("type", JSString "string")]])].

(** A declaration with one default among its two properties. *)
Definition dog_without_id_key : JSValue :=
  JSObject [("name", JSString "Dog");
            ("properties",
             JSObject [("age", JSObject [("type", JSString "int");
                                         ("default", JSNumber 1)]);
                       ("name", JSString "string")])].

(** * Properties *)

(** ** The blocks of [parse_property] *)

Lemma not_keyword_tests (t : string) :
  t ∉ type_keywords →
  (t =? "bool") = false ∧ (t =? "int") = false ∧ (t =? "float") = false ∧
  (t =? "double") = false ∧ (t =? "string") = false ∧ (t =? "date") = false ∧
  (t =? "data") = false ∧ (t =? "list") = false ∧ (t =? "object") = false.
Proof.
  intros H. repeat split; apply String.eqb_neq; intros ->; apply H;
    unfold type_keywords; simpl; repeat constructor.
Qed.

Lemma read_declaration_bare (t : string) (prop : Property) (defaults : ObjectDefaults) :
  read_declaration (JSString t) prop defaults = (Ok (None, t, prop), defaults).
Proof. reflexivity. Qed.

Lemma read_declaration_descriptor (attributes : JSValue) (t : string) (prop : Property)
    (defaults : ObjectDefaults) :
  Value.is_object attributes = true →
  Object.get_property attributes type_string = JSString t →
  boolean_or_absent (Object.get_property attributes optional_string) →
  read_declaration attributes prop defaults =
    (Ok (Some attributes, t,
         match Object.get_property attributes optional_string with
         | JSBoolean b => Property.set_is_nullable b prop
         | _ => prop
         end), defaults).
Proof.
  intros Hobj Ht Hopt.
  unfold read_declaration, bind, lift, ret, Value.validated_to_object,
    Object.validated_get_string.
  rewrite Hobj, Ht. simpl.
  destruct Hopt as [-> | [b ->]]; reflexivity.
Qed.

Lemma read_declaration_inv (attributes : JSValue) (prop prop' : Property)
    (property_object : option JSValue) (t : string) (defaults defaults' : ObjectDefaults) :
  read_declaration attributes prop defaults = (Ok (property_object, t, prop'), defaults') →
  defaults' = defaults ∧ declares attributes t ∧
  property_object = (if Value.is_object attributes then Some attributes else None) ∧
  ∃ b, prop' = Property.set_is_nullable b prop.
Proof.
  unfold read_declaration, declares, bind, lift, ret, Value.validated_to_object,
    Object.validated_get_string.
  destruct (Value.is_object attributes) eqn:Hobj.
  - destruct (Object.get_property attributes type_string) eqn:Ht; simpl;
      try discriminate.
    destruct (Object.get_property attributes optional_string) eqn:Ho; simpl;
      try discriminate; intros [= <- <- <- <-]; repeat split;
      try (by eexists); by exists (Property.is_nullable prop); destruct prop.
  - destruct attributes; simpl; try discriminate.
    intros [= <- <- <- <-]. repeat split.
    by exists (Property.is_nullable prop); destruct prop.
Qed.

Lemma resolve_type_scalar (property_object : option JSValue) (k : string)
    (K : PropertyType) (prop : Property) (defaults : ObjectDefaults) :
  (k, K) ∈ scalar_keywords →
  resolve_type property_object k prop defaults = (Ok (Property.set_type K prop), defaults).
Proof.
  intros H. unfold scalar_keywords in H.
  repeat (apply elem_of_cons in H as [[= -> ->] | H]; [reflexivity |]).
  by apply elem_of_nil in H.
Qed.

Lemma resolve_type_reference (property_object : option JSValue) (t : string)
    (prop : Property) (defaults : ObjectDefaults) :
  t ∉ type_keywords →
  resolve_type property_object t prop defaults =
    (Ok (Property.set_object_type t
           (Property.set_is_nullable true (Property.set_type PropertyTypeObject prop))),
     defaults).
Proof.
  intros H. unfold resolve_type.
  destruct (not_keyword_tests t H) as (-> & -> & -> & -> & -> & -> & -> & -> & ->).
  reflexivity.
Qed.

Lemma resolve_type_list_bare (prop : Property) (defaults : ObjectDefaults) :
  resolve_type None "list" prop defaults =
    (Throw (runtime_error "List property must specify 'objectType'"), defaults).
Proof. reflexivity. Qed.

Lemma resolve_type_list_descriptor (object : JSValue) (prop : Property)
    (defaults : ObjectDefaults) :
  resolve_type (Some object) "list" prop defaults =
    match Object.get_property object object_type_string with
    | JSString s =>
        (Ok (Property.set_object_type s (Property.set_type PropertyTypeArray prop)),
         defaults)
    | _ => (Throw (Value.type_error (Some object_type_string) "string"), defaults)
    end.
Proof.
  unfold resolve_type, bind, lift, ret, Object.validated_get_string. simpl.
  by destruct (Object.get_property object object_type_string).
Qed.

Lemma resolve_type_object_bare (prop : Property) (defaults : ObjectDefaults) :
  resolve_type None "object" prop defaults =
    (Throw (runtime_error "Object property must specify 'objectType'"), defaults).
Proof. reflexivity. Qed.

Lemma resolve_type_object_descriptor (object : JSValue) (prop : Property)
    (defaults : ObjectDefaults) :
  resolve_type (Some object) "object" prop defaults =
    match Object.get_property object object_type_string with
    | JSString s =>
        (Ok (Property.set_object_type s
               (Property.set_is_nullable true
                  (Property.set_type PropertyTypeObject prop))),
         defaults)
    | _ => (Throw (Value.type_error (Some object_type_string) "string"), defaults)
    end.
Proof.
  unfold resolve_type, bind, lift, ret, Object.validated_get_string. simpl.
  by destruct (Object.get_property object object_type_string).
Qed.

Lemma resolve_type_inv (property_object : option JSValue) (t : string)
    (prop prop' : Property) (defaults defaults' : ObjectDefaults) :
  resolve_type property_object t prop defaults = (Ok prop', defaults') →
  defaults' = defaults ∧ resolved property_object t prop prop'.
Proof.
  destruct (decide (t ∈ type_keywords)) as [Hin | Hout].
  - unfold type_keywords in Hin. simpl in Hin.
    do 7 (apply elem_of_cons in Hin as [-> | Hin];
          [intros [= <- <-]; split; [done |];
           apply resolved_scalar; unfold scalar_keywords; set_solver |]).
    apply elem_of_cons in Hin as [-> | Hin].
    { destruct property_object as [object |];
        [rewrite resolve_type_list_descriptor | by rewrite resolve_type_list_bare].
      destruct (Object.get_property object object_type_string) eqn:Hs;
        try discriminate.
      intros [= <- <-]. split; [done |]. by eapply resolved_list. }
    apply elem_of_cons in Hin as [-> | Hin]; [| by apply elem_of_nil in Hin].
    destruct property_object as [object |];
      [rewrite resolve_type_object_descriptor | by rewrite resolve_type_object_bare].
    destruct (Object.get_property object object_type_string) eqn:Hs;
      try discriminate.
    intros [= <- <-]. split; [done |]. by eapply resolved_object.
  - rewrite resolve_type_reference by done.
    intros [= <- <-]. split; [done |]. by apply resolved_reference.
Qed.

Lemma read_descriptor_fields_bare (prop : Property) (defaults : ObjectDefaults) :
  read_descriptor_fields None prop defaults = (Ok prop, defaults).
Proof. reflexivity. Qed.

Lemma read_descriptor_fields_descriptor (object : JSValue) (prop : Property)
    (defaults : ObjectDefaults) :
  boolean_or_absent (Object.get_property object indexed_string) →
  read_descriptor_fields (Some object) prop defaults =
    (Ok match Object.get_property object indexed_string with
        | JSBoolean b => Property.set_is_indexed b prop
        | _ => prop
        end,
     if Value.is_undefined (Object.get_property object default_string) then defaults
     else emplace (Property.name prop) (Object.get_property object default_string)
            defaults).
Proof.
  intros Hi. unfold read_descriptor_fields, bind, lift, ret, modify. simpl.
  destruct (Value.is_undefined (Object.get_property object default_string)); simpl;
    destruct Hi as [-> | [b ->]]; reflexivity.
Qed.

Lemma read_descriptor_fields_inv (property_object : option JSValue)
    (prop prop' : Property) (defaults defaults' : ObjectDefaults) :
  read_descriptor_fields property_object prop defaults = (Ok prop', defaults') →
  ∃ b, prop' = Property.set_is_indexed b prop.
Proof.
  unfold read_descriptor_fields, bind, lift, ret, modify.
  destruct property_object as [object |]; simpl.
  - destruct (Value.is_undefined (Object.get_property object default_string)); simpl;
      destruct (Object.get_property object indexed_string); simpl;
      try discriminate; intros [= <- <-];
      try (by eexists); by exists (Property.is_indexed prop); destruct prop.
  - intros [= <- <-]. by exists (Property.is_indexed prop); destruct prop.
Qed.

(** [parse_property] runs its three blocks in sequence. *)
Lemma parse_property_run (attributes : JSValue) (property_name : string)
    (defaults defaults1 defaults2 : ObjectDefaults) (property_object : option JSValue)
    (t : string) (prop1 prop2 : Property) :
  read_declaration attributes (Property.set_name property_name Property.default) defaults
    = (Ok (property_object, t, prop1), defaults1) →
  resolve_type property_object t prop1 defaults1 = (Ok prop2, defaults2) →
  parse_property attributes property_name defaults
    = read_descriptor_fields property_object prop2 defaults2.
Proof.
  intros H1 H2. unfold parse_property, bind. rewrite H1. simpl. by rewrite H2.
Qed.

Lemma parse_property_inv (attributes : JSValue) (property_name : string)
    (defaults defaults' : ObjectDefaults) (prop : Property) :
  parse_property attributes property_name defaults = (Ok prop, defaults') →
  ∃ t b prop2 b',
    declares attributes t ∧
    resolved (if Value.is_object attributes then Some attributes else None) t
      (Property.set_is_nullable b (Property.set_name property_name Property.default))
      prop2 ∧
    prop = Property.set_is_indexed b' prop2.
Proof.
  unfold parse_property, bind.
  destruct (read_declaration attributes _ defaults) as [[[[po t] prop1] |] defaults1]
    eqn:H1; [| discriminate].
  apply read_declaration_inv in H1 as (-> & Hd & -> & b & ->).
  destruct (resolve_type _ t _ defaults) as [[prop2 |] defaults2] eqn:H2;
    [| discriminate].
  apply resolve_type_inv in H2 as [-> H2].
  intros [b' ->]%read_descriptor_fields_inv. by exists t, b, prop2, b'.
Qed.

(** ** Properties of [parse_property] *)

(** C1. A declaration whose type string is none of the keywords bool, int,
    float, double, string, date, data, list, object parses to a Property of
    the object-reference kind whose [object_type] is that string and whose
    [is_nullable] is true, whatever its [optional] field says, in the bare
    form and in the descriptor form alike (the descriptor's [optional] and
    [indexed] fields, where present, being booleans). *)
Theorem parse_property_forward_reference
    (attributes : JSValue) (t property_name : string) (defaults : ObjectDefaults) :
  t ∉ type_keywords →
  declares attributes t →
  flags_well_typed attributes →
  ∃ prop defaults',
    parse_property attributes property_name defaults = (Ok prop, defaults') ∧
    Property.name prop = property_name ∧
    Property.type prop = PropertyTypeObject ∧
    Property.object_type prop = t ∧
    Property.is_nullable prop = true.
Proof.
  intros Hk Hd [Ho Hi]. unfold declares in Hd.
  destruct (Value.is_object attributes) eqn:Hobj.
  - erewrite parse_property_run;
      [| by apply read_declaration_descriptor | by apply resolve_type_reference].
    rewrite read_descriptor_fields_descriptor by done.
    eexists _, _. split; [reflexivity |].
    by destruct Ho as [-> | [b ->]], Hi as [-> | [b' ->]].
  - subst attributes.
    erewrite parse_property_run;
      [| apply read_declaration_bare | by apply resolve_type_reference].
    rewrite read_descriptor_fields_bare. by eexists _, _.
Qed.

Lemma parse_property_forward_reference_witness :
  ∃ prop defaults',
    parse_property
      (JSObject [("type", JSString "Person"); ("optional", JSBoolean false)])
      "owner" ∅ = (Ok prop, defaults') ∧
    Property.name prop = "owner" ∧
    Property.type prop = PropertyTypeObject ∧
    Property.object_type prop = "Person" ∧
    Property.is_nullable prop = true.
Proof.
  apply (parse_property_forward_reference
           (JSObject [("type", JSString "Person"); ("optional", JSBoolean false)])
           "Person" "owner" ∅).
  - unfold type_keywords. simpl. intros H.
    repeat (apply elem_of_cons in H as [H | H]; [discriminate |]).
    by apply elem_of_nil in H.
  - reflexivity.
  - split; [right; by exists false | by left].
Defined.

(** C8. A declaration with one of the scalar keywords parses to a Property of
    exactly that kind with an empty [object_type]; [is_nullable] and
    [is_indexed] are the descriptor's [optional] and [indexed] fields, false
    where absent; and in the bare form both are false and the defaults are
    left as they were. *)
Theorem parse_property_scalar
    (attributes : JSValue) (k : string) (K : PropertyType) (property_name : string)
    (defaults : ObjectDefaults) :
  (k, K) ∈ scalar_keywords →
  declares attributes k →
  flags_well_typed attributes →
  ∃ prop defaults',
    parse_property attributes property_name defaults = (Ok prop, defaults') ∧
    Property.name prop = property_name ∧
    Property.type prop = K ∧
    Property.object_type prop = "" ∧
    Property.is_nullable prop = flag (Object.get_property attributes optional_string) ∧
    Property.is_indexed prop = flag (Object.get_property attributes indexed_string) ∧
    (Value.is_object attributes = false →
     prop = Property.mk property_name K "" false false false ∧ defaults' = defaults).
Proof.
  intros Hk Hd [Ho Hi]. unfold declares in Hd.
  destruct (Value.is_object attributes) eqn:Hobj.
  - erewrite parse_property_run;
      [| by apply read_declaration_descriptor | by apply resolve_type_scalar].
    rewrite read_descriptor_fields_descriptor by done.
    eexists _, _. split; [reflexivity |].
    by destruct Ho as [-> | [b ->]], Hi as [-> | [b' ->]].
  - subst attributes.
    erewrite parse_property_run;
      [| apply read_declaration_bare | by apply resolve_type_scalar].
    rewrite read_descriptor_fields_bare. by eexists _, _.
Qed.

Lemma parse_property_scalar_witness :
  ∃ prop defaults',
    parse_property (JSString "date") "born" {["born" := JSNull]} = (Ok prop, defaults') ∧
    Property.name prop = "born" ∧
    Property.type prop = PropertyTypeDate ∧
    Property.object_type prop = "" ∧
    Property.is_nullable prop = false ∧
    Property.is_indexed prop = false ∧
    (false = false →
     prop = Property.mk "born" PropertyTypeDate "" false false false ∧
     defaults' = {["born" := JSNull]}).
Proof.
  apply (parse_property_scalar (JSString "date") "date" PropertyTypeDate "born"
           {["born" := JSNull]}).
  - unfold scalar_keywords. do 5 apply list_elem_of_further. apply list_elem_of_here.
  - reflexivity.
  - split; by left.
Defined.




(** C9, as stated, fails: nothing checks that the string copied into
    [object_type] is non-empty, neither for a forward reference nor for the
    [objectType] field of a list. *)
Lemma parse_property_empty_object_type :
  (∃ prop defaults',
     parse_property (JSString "") "owner" ∅ = (Ok prop, defaults') ∧
     Property.type prop = PropertyTypeObject ∧ Property.object_type prop = "") ∧
  (∃ prop defaults',
     parse_property (JSObject [("type", JSString "list"); ("objectType", JSString "")])
       "dogs" ∅ = (Ok prop, defaults') ∧
     Property.type prop = PropertyTypeArray ∧ Property.object_type prop = "").
Proof. split; by eexists _, _. Qed.

(** C9, amended. In every Property [parse_property] returns, [object_type] is
    the string the declaration supplied for it, unchecked: the [objectType]
    field of the descriptor for the list kind and for the object kind declared
    with the keyword [object], the type string itself for an object kind
    declared by any other name; so it is non-empty exactly when that string
    is. For every other kind [object_type] is empty. *)
Theorem parse_property_object_type
    (attributes : JSValue) (property_name : string) (defaults defaults' : ObjectDefaults)
    (prop : Property) :
  parse_property attributes property_name defaults = (Ok prop, defaults') →
  ∃ t, declares attributes t ∧
    match Property.type prop with
    | PropertyTypeArray =>
        t = "list" ∧
        Object.get_property attributes object_type_string
          = JSString (Property.object_type prop)
    | PropertyTypeObject =>
        (t = "object" ∧
         Object.get_property attributes object_type_string
           = JSString (Property.object_type prop)) ∨
        ((t ∉ type_keywords) ∧ Property.object_type prop = t)
    | K => (t, K) ∈ scalar_keywords ∧ Property.object_type prop = ""
    end.
Proof.
  intros (t & b & prop2 & b' & Hd & Hr & ->)%parse_property_inv.
  exists t. split; [done |].
  destruct Hr as [K HK | object s -> Hpo Hs | object s -> Hpo Hs | Hk]; simpl.
  - unfold scalar_keywords in HK.
    repeat (apply elem_of_cons in HK as [[= -> ->] | HK];
            [split; [unfold scalar_keywords; set_solver | done] |]).
    by apply elem_of_nil in HK.
  - destruct (Value.is_object attributes); [| done].
    injection Hpo as <-. done.
  - destruct (Value.is_object attributes); [| done].
    injection Hpo as <-. by left.
  - by right.
Qed.

Lemma parse_property_object_type_witness :
  ∃ t, declares (JSObject [("type", JSString "object"); ("objectType", JSString "Dog")]) t ∧
    ((t = "object" ∧
      Object.get_property
        (JSObject [("type", JSString "object"); ("objectType", JSString "Dog")])
        object_type_string = JSString "Dog") ∨
     ((t ∉ type_keywords) ∧ "Dog" = t)).
Proof.
  apply (parse_property_object_type
           (JSObject [("type", JSString "object"); ("objectType", JSString "Dog")])
           "pet" ∅ ∅
           (Property.mk "pet" PropertyTypeObject "Dog" false false true)).
  reflexivity.
Defined.

(** ** Loops *)

Section loops.
Context {S X Acc : Type}.
Implicit Types (body : X → Acc → M S Acc) (xs : list X) (acc : Acc) (s : S).

Lemma for_each_app xs ys body acc s :
  for_each (xs ++ ys) body acc s =
    match for_each xs body acc s with
    | (Ok acc', s') => for_each ys body acc' s'
    | (Throw e, s') => (Throw e, s')
    end.
Proof.
  revert acc s. induction xs as [| x xs IH]; intros acc s; [done |].
  simpl. unfold bind. destruct (body x acc s) as [[acc' |] s']; [apply IH | done].
Qed.

Lemma for_each_ext xs body1 body2 acc s :
  (∀ x acc s, x ∈ xs → body1 x acc s = body2 x acc s) →
  for_each xs body1 acc s = for_each xs body2 acc s.
Proof.
  revert acc s. induction xs as [| x xs IH]; intros acc s H; [done |].
  simpl. unfold bind. rewrite H by apply list_elem_of_here.
  destruct (body2 x acc s) as [[acc' |] s']; [| done].
  apply IH. intros. apply H. by apply list_elem_of_further.
Qed.

(** A loop whose body leaves the state alone leaves the state alone. *)
Lemma for_each_state xs body acc s r s' :
  (∀ x acc s r s', body x acc s = (r, s') → s' = s) →
  for_each xs body acc s = (r, s') → s' = s.
Proof.
  intros Hbody. revert acc. induction xs as [| x xs IH]; intros acc; simpl.
  - by intros [= <- <-].
  - unfold bind. destruct (body x acc s) as [[acc' |] s1] eqn:Hx;
      apply Hbody in Hx as ->; [apply IH | by intros [= <- <-]].
Qed.
End loops.

(** A loop counting through a list by index does what the loop over its
    elements does. *)
Lemma for_each_seq {St X Acc} (l : list X) (by_index : nat → Acc → M St Acc)
    (by_element : X → Acc → M St Acc) (acc : Acc) (s : St) :
  (∀ i x acc s, l !! i = Some x → by_index i acc s = by_element x acc s) →
  for_each (seq 0 (length l)) by_index acc s = for_each l by_element acc s.
Proof.
  enough (∀ k acc s,
            (∀ i x acc s, l !! i = Some x → by_index (k + i) acc s = by_element x acc s) →
            for_each (seq k (length l)) by_index acc s = for_each l by_element acc s)
    as H by (intros; by apply H).
  clear acc s. induction l as [| x l IH]; intros k acc s H; [done |].
  simpl. unfold bind. rewrite <- (Nat.add_0_r k) at 1. rewrite (H 0 x) by done.
  destruct (by_element x acc s) as [[acc' |] s']; [| done].
  apply IH. intros i y acc0 s0 Hy. rewrite Nat.add_succ_comm. by apply H.
Qed.

(** ** The properties loop of [parse_object_schema] *)

Lemma resolved_unchanged (property_object : option JSValue) (t : string)
    (prop prop' : Property) :
  resolved property_object t prop prop' →
  Property.name prop' = Property.name prop ∧
  Property.is_primary prop' = Property.is_primary prop.
Proof. by intros []. Qed.

Lemma parse_property_name (attributes : JSValue) (property_name : string)
    (defaults defaults' : ObjectDefaults) (prop : Property) :
  parse_property attributes property_name defaults = (Ok prop, defaults') →
  Property.name prop = property_name ∧ Property.is_primary prop = false.
Proof.
  intros (t & b & prop2 & b' & _ & Hr & ->)%parse_property_inv.
  by apply resolved_unchanged in Hr.
Qed.

Lemma emplace_back_property_state {S} (attributes : JSValue) (property_name : string)
    (locals : ObjectSchema * ObjectDefaults) (s s' : S)
    (r : Result (ObjectSchema * ObjectDefaults)) :
  emplace_back_property attributes property_name locals s = (r, s') → s' = s.
Proof.
  destruct locals as [os od]. unfold emplace_back_property, bind, with_local, ret.
  destruct (parse_property attributes property_name od) as [[p |] od'];
    by intros [= <- <-].
Qed.

Lemma emplace_back_property_inv {S} (attributes : JSValue) (property_name : string)
    (os os' : ObjectSchema) (od od' : ObjectDefaults) (s s' : S) :
  emplace_back_property attributes property_name (os, od) s = (Ok (os', od'), s') →
  ∃ prop,
    parse_property attributes property_name od = (Ok prop, od') ∧
    os' = ObjectSchema.set_properties (ObjectSchema.properties os ++ [prop]) os.
Proof.
  unfold emplace_back_property, bind, with_local, ret.
  destruct (parse_property attributes property_name od) as [[p |] od1];
    [| discriminate].
  intros [= <- <- <-]. by exists p.
Qed.

Lemma parse_properties_state {S} (properties_object : JSValue)
    (locals : ObjectSchema * ObjectDefaults) (s s' : S)
    (r : Result (ObjectSchema * ObjectDefaults)) :
  parse_properties properties_object locals s = (r, s') → s' = s.
Proof.
  unfold parse_properties.
  destruct (Value.is_array properties_object).
  - unfold bind, lift.
    destruct (Object.validated_get_length properties_object) as [n |];
      [| by intros [= <- <-]].
    apply for_each_state. intros i acc s0 r0 s0'. unfold bind, lift.
    destruct (Object.validated_get_object_at properties_object i) as [o |];
      [| by intros [= <- <-]].
    destruct (Object.validated_get_string o name_string) as [n' |];
      [| by intros [= <- <-]].
    apply emplace_back_property_state.
  - apply for_each_state. intros k acc s0 r0 s0'. apply emplace_back_property_state.
Qed.

(** A loop that appends one property per element, each related to its element
    by [R], appends a list related to the elements by [R]. *)
Lemma for_each_properties {S X} (R : X → Property → Prop) (xs : list X)
    (body : X → ObjectSchema * ObjectDefaults → M S (ObjectSchema * ObjectDefaults))
    (os os' : ObjectSchema) (od od' : ObjectDefaults) (s s' : S) :
  (∀ x os od s os' od' s',
     body x (os, od) s = (Ok (os', od'), s') →
     ∃ prop, R x prop ∧
       os' = ObjectSchema.set_properties (ObjectSchema.properties os ++ [prop]) os) →
  for_each xs body (os, od) s = (Ok (os', od'), s') →
  ∃ new, Forall2 R xs new ∧
    os' = ObjectSchema.set_properties (ObjectSchema.properties os ++ new) os.
Proof.
  intros Hbody. revert os od s.
  induction xs as [| x xs IH]; intros os od s; simpl.
  - intros [= <- <- <-]. exists []. split; [constructor |].
    rewrite app_nil_r. by destruct os.
  - unfold bind. destruct (body x (os, od) s) as [[[os1 od1] |] s1] eqn:Hx;
      [| discriminate].
    apply Hbody in Hx as (p & HR & ->).
    intros (new & Hnew & ->)%IH. exists (p :: new). split; [by constructor |].
    simpl. by rewrite <- app_assoc.
Qed.

Lemma validated_to_object_inv (v o : JSValue) (name : option string) :
  Value.validated_to_object v name = Ok o → o = v ∧ Value.is_object v = true.
Proof.
  unfold Value.validated_to_object. destruct (Value.is_object v); [| done].
  by intros [= <-].
Qed.

Lemma validated_get_string_inv (object : JSValue) (key s : string) :
  Object.validated_get_string object key = Ok s →
  Object.get_property object key = JSString s.
Proof.
  unfold Object.validated_get_string.
  destruct (Object.get_property object key); simpl; try discriminate.
  by intros [= <-].
Qed.

Lemma validated_get_object_inv (object o : JSValue) (key : string)
    (message : option string) :
  Object.validated_get_object object key message = Ok o →
  o = Object.get_property object key ∧ Value.is_object o = true.
Proof.
  unfold Object.validated_get_object, Object.with_message.
  destruct (Value.validated_to_object _ _) as [o' | e] eqn:Ho.
  - apply validated_to_object_inv in Ho as [-> Ho]. by intros [= <-].
  - by destruct e, message.
Qed.

Lemma Forall2_conj_r {A B} (P : B → Prop) (Q : A → B → Prop) (xs : list A)
    (ys : list B) :
  Forall2 (λ x y, P y ∧ Q x y) xs ys → Forall P ys ∧ Forall2 Q xs ys.
Proof.
  induction 1 as [| x y xs ys [HP HQ] _ [IH1 IH2]]; split; by constructor.
Qed.

(** What the properties loop has done when it returns: one Property per
    declared property, none of them primary, appended in order and named by
    the [name] field of its descriptor (array) or by its field name (any other
    object). *)
Lemma parse_properties_inv {St} (properties_object : JSValue) (os os' : ObjectSchema)
    (od od' : ObjectDefaults) (s s' : St) :
  parse_properties properties_object (os, od) s = (Ok (os', od'), s') →
  ∃ new,
    os' = ObjectSchema.set_properties (ObjectSchema.properties os ++ new) os ∧
    Forall (λ p, Property.is_primary p = false) new ∧
    if Value.is_array properties_object then
      Object.validated_get_length properties_object = Ok (length new) ∧
      Forall2 (λ i p, Object.get_property (Object.get_property_at properties_object i)
                        name_string = JSString (Property.name p))
        (seq 0 (length new)) new
    else Property.name <$> new = Object.get_property_names properties_object.
Proof.
  unfold parse_properties. destruct (Value.is_array properties_object).
  - unfold bind at 1. unfold lift at 1.
    destruct (Object.validated_get_length properties_object) as [n |] eqn:Hlen;
      [| discriminate].
    intros H.
    apply (for_each_properties
             (λ i p, Property.is_primary p = false ∧
                     Object.get_property (Object.get_property_at properties_object i)
                       name_string = JSString (Property.name p)))
      in H as (new & Hnew & ->).
    + exists new. split; [done |].
      assert (length new = n) as ->
        by (rewrite <- (Forall2_length _ _ _ Hnew); apply length_seq).
      by apply Forall2_conj_r in Hnew as [Hp Hn].
    + clear. intros i os od s os' od' s'. unfold bind, lift.
      destruct (Object.validated_get_object_at properties_object i) as [o |] eqn:Ho;
        [| discriminate].
      apply validated_to_object_inv in Ho as [-> _].
      destruct (Object.validated_get_string _ name_string) as [n |] eqn:Hn;
        [| discriminate].
      apply validated_get_string_inv in Hn.
      intros (p & [Hp1 Hp2]%parse_property_name & ->)%emplace_back_property_inv.
      exists p. by rewrite Hp1.
  - intros H.
    apply (for_each_properties
             (λ k p, Property.is_primary p = false ∧ Property.name p = k))
      in H as (new & Hnew & ->).
    + exists new. split; [done |].
      apply Forall2_conj_r in Hnew as [Hp Hn]. split; [done |].
      clear -Hn. induction Hn as [| k p ks ps Hn _ IH]; [done |].
      rewrite fmap_cons. by f_equal.
    + clear. intros k os od s os' od' s'.
      intros (p & [Hp1 Hp2]%parse_property_name & ->)%emplace_back_property_inv.
      by exists p.
Qed.

(** ** The blocks of [parse_object_schema] *)

Lemma resolve_constructor_inv (object_schema_object descriptor : JSValue)
    (constructor : option JSValue) (maps maps' : Maps) :
  resolve_constructor object_schema_object maps = (Ok (constructor, descriptor), maps') →
  maps' = maps ∧
  if Value.is_constructor object_schema_object
  then constructor = Some object_schema_object ∧
       descriptor = Object.get_property object_schema_object schema_string
  else constructor = None ∧ descriptor = object_schema_object.
Proof.
  unfold resolve_constructor, bind, lift, ret.
  destruct (Value.is_constructor object_schema_object).
  - destruct (Object.validated_get_object _ _ _) as [o |] eqn:Ho; [| discriminate].
    apply validated_get_object_inv in Ho as [-> _]. by intros [= <- <- <-].
  - by intros [= <- <- <-].
Qed.

Lemma resolve_constructor_state (object_schema_object : JSValue) (maps maps' : Maps)
    (r : Result (option JSValue * JSValue)) :
  resolve_constructor object_schema_object maps = (r, maps') → maps' = maps.
Proof.
  unfold resolve_constructor, bind, lift, ret.
  destruct (Value.is_constructor object_schema_object);
    [destruct (Object.validated_get_object _ _ _) |]; by intros [= <- <-].
Qed.

Lemma parse_name_and_properties_state (descriptor : JSValue) (maps maps' : Maps)
    (r : Result (ObjectSchema * ObjectDefaults)) :
  parse_name_and_properties descriptor maps = (r, maps') → maps' = maps.
Proof.
  unfold parse_name_and_properties, bind, lift.
  destruct (Object.validated_get_string descriptor name_string);
    [| by intros [= <- <-]].
  destruct (Object.validated_get_object descriptor properties_string _);
    [| by intros [= <- <-]].
  apply parse_properties_state.
Qed.

Lemma resolve_primary_key_state (descriptor : JSValue) (os : ObjectSchema)
    (maps maps' : Maps) (r : Result ObjectSchema) :
  resolve_primary_key descriptor os maps = (r, maps') → maps' = maps.
Proof.
  unfold resolve_primary_key, bind, lift, ret, throw.
  destruct (negb _); [| by intros [= <- <-]].
  destruct (Value.validated_to_string _ _); [| by intros [= <- <-]].
  destruct (ObjectSchema.primary_key_property _) as [[i p] |]; by intros [= <- <-].
Qed.

Lemma resolve_primary_key_name (descriptor : JSValue) (os os' : ObjectSchema)
    (maps maps' : Maps) :
  resolve_primary_key descriptor os maps = (Ok os', maps') →
  ObjectSchema.name os' = ObjectSchema.name os.
Proof.
  unfold resolve_primary_key, bind, lift, ret, throw.
  destruct (negb _); [| by intros [= <- <-]].
  destruct (Value.validated_to_string _ _); [| by intros [= <- <-]].
  destruct (ObjectSchema.primary_key_property _) as [[i p] |]; by intros [= <- <-].
Qed.

Lemma commit_ok (constructor : option JSValue) (os : ObjectSchema)
    (od : ObjectDefaults) (maps : Maps) :
  commit constructor os od maps =
    (Ok os,
     (emplace (ObjectSchema.name os) od maps.1,
      match constructor with
      | Some c => emplace (ObjectSchema.name os) c maps.2
      | None => maps.2
      end)).
Proof. by destruct constructor. Qed.

(** The maps after [parse_object_schema]: untouched when it throws; when it
    returns, the defaults of the type, and its constructor if the declaration
    is one, emplaced under the name of the type. *)
Lemma parse_object_schema_maps (object_schema_object : JSValue) (maps : Maps) :
  match parse_object_schema object_schema_object maps with
  | (Throw _, maps') => maps' = maps
  | (Ok os, maps') =>
      ∃ object_defaults,
        maps'.1 = emplace (ObjectSchema.name os) object_defaults maps.1 ∧
        maps'.2 = if Value.is_constructor object_schema_object
                  then emplace (ObjectSchema.name os) object_schema_object maps.2
                  else maps.2
  end.
Proof.
  unfold parse_object_schema, bind.
  destruct (resolve_constructor _ maps) as [[[ctor descriptor] |] maps1] eqn:H1;
    [| by apply resolve_constructor_state in H1].
  apply resolve_constructor_inv in H1 as [-> H1].
  destruct (parse_name_and_properties descriptor maps) as [[[os od] |] maps2] eqn:H2;
    apply parse_name_and_properties_state in H2 as ->; [| done].
  destruct (resolve_primary_key descriptor os maps) as [[os' |] maps3] eqn:H3;
    apply resolve_primary_key_state in H3 as ->; [| done].
  unfold commit, bind, modify, ret.
  destruct (Value.is_constructor object_schema_object); destruct H1 as [-> ->];
    simpl; by exists od.
Qed.

Lemma parse_name_and_properties_inv (descriptor : JSValue) (os : ObjectSchema)
    (od : ObjectDefaults) (maps maps' : Maps) :
  parse_name_and_properties descriptor maps = (Ok (os, od), maps') →
  Object.get_property descriptor name_string = JSString (ObjectSchema.name os) ∧
  ObjectSchema.primary_key os = "" ∧
  Forall (λ p, Property.is_primary p = false) (ObjectSchema.properties os) ∧
  let properties_object := Object.get_property descriptor properties_string in
  let names := Property.name <$> ObjectSchema.properties os in
  if Value.is_array properties_object then
    Object.validated_get_length properties_object = Ok (length names) ∧
    Forall2 (λ i n, Object.get_property (Object.get_property_at properties_object i)
                      name_string = JSString n)
      (seq 0 (length names)) names
  else names = Object.get_property_names properties_object.
Proof.
  unfold parse_name_and_properties, bind, lift.
  destruct (Object.validated_get_string descriptor name_string) as [n |] eqn:Hn;
    [| discriminate].
  apply validated_get_string_inv in Hn.
  destruct (Object.validated_get_object descriptor properties_string _)
    as [po |] eqn:Hpo; [| discriminate].
  apply validated_get_object_inv in Hpo as [-> _].
  intros (new & -> & Hprimary & Hnames)%parse_properties_inv. simpl.
  repeat split; try done.
  destruct (Value.is_array _); [| done].
  destruct Hnames as [Hlen Hnames]. rewrite length_fmap. split; [done |].
  by apply Forall2_fmap_r.
Qed.

(** Flagging the primary key changes no name. *)
Lemma names_insert_is_primary (properties : list Property) (i : nat) (p : Property) :
  properties !! i = Some p →
  Property.name <$> <[i := Property.set_is_primary true p]> properties
    = Property.name <$> properties.
Proof.
  intros Hp. rewrite list_fmap_insert. simpl.
  apply list_insert_id. by rewrite list_lookup_fmap, Hp.
Qed.

Lemma resolve_primary_key_inv (descriptor : JSValue) (os os' : ObjectSchema)
    (maps maps' : Maps) :
  resolve_primary_key descriptor os maps = (Ok os', maps') →
  (Object.get_property descriptor primary_string = JSUndefined ∧ os' = os) ∨
  ∃ pk i p,
    Object.get_property descriptor primary_string = JSString pk ∧
    list_find (λ p, Property.name p = pk) (ObjectSchema.properties os) = Some (i, p) ∧
    os' = ObjectSchema.mk (ObjectSchema.name os)
            (<[i := Property.set_is_primary true p]> (ObjectSchema.properties os)) pk.
Proof.
  unfold resolve_primary_key, bind, lift, ret, throw.
  destruct (Object.get_property descriptor primary_string) eqn:Hpk; simpl;
    try discriminate.
  - intros [= <- <-]. by left.
  - unfold ObjectSchema.primary_key_property, ObjectSchema.property_for_name. simpl.
    destruct (list_find _ _) as [[i p] |] eqn:Hfind; [| discriminate].
    intros [= <- <-]. right. by exists s, i, p.
Qed.

Lemma NoDup_unique_names (names : list string) : NoDup (unique_names names).
Proof.
  induction names as [| k names IH]; simpl; [constructor |].
  constructor; [| by apply NoDup_filter].
  rewrite list_elem_of_filter. by intros [Hk _].
Qed.

Lemma filter_all {A} (P : A → Prop) `{!∀ x, Decision (P x)} (l : list A) :
  Forall P l → filter P l = l.
Proof.
  induction 1 as [| x l Hx _ IH]; [done |]. by rewrite filter_cons_True, IH.
Qed.

Lemma unique_names_NoDup (names : list string) :
  NoDup names → unique_names names = names.
Proof.
  induction 1 as [| k names Hk _ IH]; simpl; [done |].
  rewrite IH. f_equal. apply filter_all, Forall_forall. by intros k' Hk' ->.
Qed.

Lemma NoDup_get_property_names (object : JSValue) :
  Value.is_array object = false → NoDup (Object.get_property_names object).
Proof.
  destruct object; simpl; try done; intros _;
    try apply NoDup_unique_names; constructor.
Qed.

(** The names of the properties of a returned ObjectSchema, by the shape of
    the declared properties. *)
Lemma parse_object_schema_names_inv (object_schema_object : JSValue)
    (maps maps' : Maps) (os : ObjectSchema) :
  parse_object_schema object_schema_object maps = (Ok os, maps') →
  let names := Property.name <$> ObjectSchema.properties os in
  let properties_object := declared_properties object_schema_object in
  if Value.is_array properties_object then
    Object.validated_get_length properties_object = Ok (length names) ∧
    Forall2 (λ i n, Object.get_property (Object.get_property_at properties_object i)
                      name_string = JSString n)
      (seq 0 (length names)) names
  else names = Object.get_property_names properties_object.
Proof.
  unfold parse_object_schema, bind.
  destruct (resolve_constructor _ maps) as [[[ctor descriptor] |] maps1] eqn:H1;
    [| discriminate].
  apply resolve_constructor_inv in H1 as [-> H1].
  assert (descriptor = schema_descriptor object_schema_object) as Hd.
  { unfold schema_descriptor.
    by destruct (Value.is_constructor object_schema_object), H1. }
  clear H1.
  destruct (parse_name_and_properties descriptor maps) as [[[os0 od] |] maps2] eqn:H2;
    [| discriminate].
  apply parse_name_and_properties_inv in H2 as (_ & _ & _ & H2).
  destruct (resolve_primary_key descriptor os0 maps2) as [[os1 |] maps3] eqn:H3;
    [| discriminate].
  rewrite commit_ok. intros [= <- <-].
  assert (Property.name <$> ObjectSchema.properties os1
          = Property.name <$> ObjectSchema.properties os0) as Hnames.
  { apply resolve_primary_key_inv in H3 as [[_ ->] | (pk & i & p & _ & Hfind & ->)];
      [done |].
    apply list_find_Some in Hfind as (Hi & _). by apply names_insert_is_primary. }
  unfold declared_properties. rewrite <- Hd. simpl in *. rewrite Hnames.
  by destruct (Value.is_array _).
Qed.

(** ** Properties of [parse_object_schema] *)

(** C10. [parse_object_schema] is atomic per declaration with respect to the
    output maps: when it throws, both maps are as they were; when it returns,
    they are as they were but for the defaults of the type, and its
    constructor if the declaration is one, emplaced under the name of the
    type. *)
Theorem parse_object_schema_atomic (object_schema_object : JSValue) (maps maps' : Maps)
    (r : Result ObjectSchema) :
  parse_object_schema object_schema_object maps = (r, maps') →
  match r with
  | Throw _ => maps' = maps
  | Ok os =>
      ∃ object_defaults,
        maps'.1 = emplace (ObjectSchema.name os) object_defaults maps.1 ∧
        maps'.2 = if Value.is_constructor object_schema_object
                  then emplace (ObjectSchema.name os) object_schema_object maps.2
                  else maps.2
  end.
Proof.
  intros H. pose proof (parse_object_schema_maps object_schema_object maps) as Hmaps.
  by rewrite H in Hmaps.
Qed.

Lemma parse_object_schema_atomic_witness :
  (parse_object_schema dog_without_id ({["Cat" := ∅]}, ∅)).2 = ({["Cat" := ∅]}, ∅).
Proof.
  apply (parse_object_schema_atomic dog_without_id ({["Cat" := ∅]}, ∅) _
           (Throw (runtime_error "Missing primary key property 'id'"))).
  reflexivity.
Defined.

(** C2. With a [primaryKey] field [pk], on a declaration whose name and
    properties parse: if no property is named [pk] the parse fails with the
    runtime error "Missing primary key property '<pk>'" and the maps are as
    they were; otherwise it returns the ObjectSchema with [primary_key] = [pk]
    and the first property named [pk], and that property only, flagged
    [is_primary]. *)
Theorem parse_object_schema_primary_key
    (object_schema_object descriptor : JSValue) (constructor : option JSValue)
    (parsed : ObjectSchema) (object_defaults : ObjectDefaults) (pk : string)
    (maps : Maps) :
  resolve_constructor object_schema_object maps = (Ok (constructor, descriptor), maps) →
  parse_name_and_properties descriptor maps = (Ok (parsed, object_defaults), maps) →
  Object.get_property descriptor primary_string = JSString pk →
  let names := Property.name <$> ObjectSchema.properties parsed in
  (pk ∉ names →
   parse_object_schema object_schema_object maps
     = (Throw (runtime_error ("Missing primary key property '" +:+ pk +:+ "'")), maps)) ∧
  (pk ∈ names →
   ∃ os maps' i p,
     parse_object_schema object_schema_object maps = (Ok os, maps') ∧
     ObjectSchema.name os = ObjectSchema.name parsed ∧
     ObjectSchema.primary_key os = pk ∧
     ObjectSchema.properties os
       = <[i := Property.set_is_primary true p]> (ObjectSchema.properties parsed) ∧
     ObjectSchema.properties parsed !! i = Some p ∧
     Property.name p = pk ∧
     (∀ j q, (j < i)%nat → ObjectSchema.properties parsed !! j = Some q →
             Property.name q ≠ pk) ∧
     (∀ j q, ObjectSchema.properties os !! j = Some q →
             Property.is_primary q = bool_decide (j = i))).
Proof.
  intros H1 H2 Hpk names.
  pose proof (parse_name_and_properties_inv _ _ _ _ _ H2) as (_ & _ & Hprimary & _).
  unfold parse_object_schema, bind. rewrite H1. simpl. rewrite H2. simpl.
  unfold resolve_primary_key, bind, lift, ret, throw. rewrite Hpk. simpl.
  unfold ObjectSchema.primary_key_property, ObjectSchema.property_for_name. simpl.
  destruct (list_find _ _) as [[i p] |] eqn:Hfind.
  - apply list_find_Some in Hfind as (Hi & Hp & Hfirst). split.
    + intros Hnot. destruct Hnot. subst names.
      rewrite <- Hp. apply list_elem_of_fmap. exists p. split; [done |].
      by eapply list_elem_of_lookup_2.
    + intros _. rewrite commit_ok. eexists _, _, i, p. split; [reflexivity |].
      repeat split; try done.
      { intros j q ??. by eapply Hfirst. }
      intros j q. simpl. destruct (decide (j = i)) as [-> | Hne].
      * rewrite list_lookup_insert_eq by by eapply lookup_lt_Some.
        intros [= <-]. by rewrite bool_decide_eq_true_2.
      * rewrite list_lookup_insert_ne by done. intros Hq.
        rewrite bool_decide_eq_false_2 by done.
        by eapply (Forall_lookup_1 _ _ _ _ Hprimary).
  - apply list_find_None in Hfind. split; [done |].
    intros (p & Hp & Hin)%list_elem_of_fmap.
    by eapply (proj1 (Forall_forall _ _) Hfind) in Hin.
Qed.

Lemma parse_object_schema_primary_key_witness :
  ∃ os maps' i p,
    parse_object_schema dog_with_id (∅, ∅) = (Ok os, maps') ∧
    ObjectSchema.name os = "Dog" ∧
    ObjectSchema.primary_key os = "id" ∧
    ObjectSchema.properties os
      = <[i := Property.set_is_primary true p]>
          [Property.mk "id" PropertyTypeInt "" false false false;
           Property.mk "name" PropertyTypeString "" false false false] ∧
    [Property.mk "id" PropertyTypeInt "" false false false;
     Property.mk "name" PropertyTypeString "" false false false] !! i = Some p ∧
    Property.name p = "id" ∧
    (∀ j q, (j < i)%nat →
            [Property.mk "id" PropertyTypeInt "" false false false;
             Property.mk "name" PropertyTypeString "" false false false] !! j = Some q →
            Property.name q ≠ "id") ∧
    (∀ j q, ObjectSchema.properties os !! j = Some q →
            Property.is_primary q = bool_decide (j = i)).
Proof.
  apply (parse_object_schema_primary_key dog_with_id dog_with_id None
           (ObjectSchema.mk "Dog"
              [Property.mk "id" PropertyTypeInt "" false false false;
               Property.mk "name" PropertyTypeString "" false false false] "")
           ∅ "id" (∅, ∅)).
  - reflexivity.
  - reflexivity.
  - reflexivity.
  - simpl. apply list_elem_of_here.
Defined.

(** C6, as stated, fails on the ordered-list shape: the names of the
    descriptors are taken as they come, repeated or not. *)
Lemma parse_object_schema_duplicate_names :
  ∃ os maps',
    parse_object_schema twice_a (∅, ∅) = (Ok os, maps') ∧
    Property.name <$> ObjectSchema.properties os = ["a"; "a"] ∧
    ¬ NoDup (Property.name <$> ObjectSchema.properties os).
Proof.
  eexists _, _. split; [reflexivity |]. split; [reflexivity |].
  simpl. intros Hdup. apply NoDup_cons in Hdup as [Hdup _].
  apply Hdup, list_elem_of_here.
Qed.

(** C6, amended. The property names of a returned ObjectSchema are the names
    the declaration supplies, in order. From a name-keyed mapping they are the
    field names the mapping enumerates, hence pairwise unique; from an ordered
    list they are the [name] fields of the descriptors, one per element, and
    nothing checks them for repetition. *)
Theorem parse_object_schema_property_names (object_schema_object : JSValue)
    (maps maps' : Maps) (os : ObjectSchema) :
  parse_object_schema object_schema_object maps = (Ok os, maps') →
  let names := Property.name <$> ObjectSchema.properties os in
  let properties_object := declared_properties object_schema_object in
  if Value.is_array properties_object then
    Object.validated_get_length properties_object = Ok (length names) ∧
    Forall2 (λ i n, Object.get_property (Object.get_property_at properties_object i)
                      name_string = JSString n)
      (seq 0 (length names)) names
  else names = Object.get_property_names properties_object ∧ NoDup names.
Proof.
  intros H names properties_object.
  apply parse_object_schema_names_inv in H. fold names properties_object in H.
  destruct (Value.is_array properties_object) eqn:Harray; [done |].
  split; [done |]. rewrite H. by apply NoDup_get_property_names.
Qed.

Lemma parse_object_schema_property_names_witness :
  Property.name <$> [Property.mk "id" PropertyTypeInt "" true false false;
                     Property.mk "name" PropertyTypeString "" false false false]
    = Object.get_property_names (declared_properties dog_with_id) ∧
  NoDup (Property.name <$> [Property.mk "id" PropertyTypeInt "" true false false;
                            Property.mk "name" PropertyTypeString "" false false false]).
Proof.
  apply (parse_object_schema_property_names dog_with_id (∅, ∅) ({["Dog" := ∅]}, ∅)
           (ObjectSchema.mk "Dog"
              [Property.mk "id" PropertyTypeInt "" true false false;
               Property.mk "name" PropertyTypeString "" false false false] "id")).
  reflexivity.
Defined.

(** ** The two shapes of [properties] *)

Lemma for_each_fmap {St X Y Acc} (f : X → Y) (xs : list X)
    (body : Y → Acc → M St Acc) (acc : Acc) (s : St) :
  for_each (f <$> xs) body acc s = for_each xs (λ x, body (f x)) acc s.
Proof.
  revert acc s. induction xs as [| x xs IH]; intros acc s; [done |].
  simpl. unfold bind. by destruct (body (f x) acc s) as [[acc' |] s'].
Qed.

Lemma assoc_assoc_set_eq (key : string) (value : JSValue)
    (fields : list (string * JSValue)) :
  assoc key (assoc_set key value fields) = value.
Proof.
  induction fields as [| [k v] fields IH]; simpl.
  - by rewrite String.eqb_refl.
  - destruct (k =? key) eqn:Hk; simpl; by rewrite Hk.
Qed.

Lemma assoc_assoc_set_ne (key key' : string) (value : JSValue)
    (fields : list (string * JSValue)) :
  key ≠ key' → assoc key' (assoc_set key value fields) = assoc key' fields.
Proof.
  intros Hne. induction fields as [| [k v] fields IH]; simpl.
  - by apply String.eqb_neq in Hne as ->.
  - destruct (k =? key) eqn:Hk; simpl.
    + apply String.eqb_eq in Hk as ->. by apply String.eqb_neq in Hne as ->.
    + by rewrite IH.
Qed.

Lemma assoc_NoDup (key : string) (value : JSValue) (fields : list (string * JSValue)) :
  NoDup fields.*1 → (key, value) ∈ fields → assoc key fields = value.
Proof.
  induction fields as [| [k v] fields IH]; simpl.
  - by intros _ ?%elem_of_nil.
  - intros [Hk Hnd]%NoDup_cons [[= -> ->] | Hin]%elem_of_cons.
    + by rewrite String.eqb_refl.
    + destruct (k =? key) eqn:Heq; [| by apply IH].
      apply String.eqb_eq in Heq as ->. destruct Hk.
      apply list_elem_of_fmap. by exists (key, value).
Qed.

(** [parse_property] reads five fields of a descriptor and nothing else. *)
Lemma parse_property_agree (d v : JSValue) (property_name : string)
    (defaults : ObjectDefaults) :
  Value.is_object d = true → Value.is_object v = true →
  Forall (λ k, Object.get_property v k = Object.get_property d k)
    [type_string; optional_string; object_type_string; default_string;
     indexed_string] →
  parse_property d property_name defaults = parse_property v property_name defaults.
Proof.
  intros Hd Hv H.
  apply Forall_cons in H as [Ht H]. apply Forall_cons in H as [Hopt H].
  apply Forall_cons in H as [Hot H]. apply Forall_cons in H as [Hdef H].
  apply Forall_cons in H as [Hidx _].
  unfold parse_property, read_declaration, bind, lift, ret,
    Value.validated_to_object, Object.validated_get_string.
  rewrite Hd, Hv, Ht, Hopt.
  destruct (Object.get_property d type_string) as [| | | | t | | |]; simpl; try done.
  assert (∀ prop,
            (let (r, s') := resolve_type (Some d) t prop defaults in
             match r with
             | Ok a => read_descriptor_fields (Some d) a s'
             | Throw e => (Throw e, s')
             end) =
            (let (r, s') := resolve_type (Some v) t prop defaults in
             match r with
             | Ok a => read_descriptor_fields (Some v) a s'
             | Throw e => (Throw e, s')
             end)) as Hrest.
  { intros prop.
    unfold resolve_type, read_descriptor_fields, bind, lift, ret, throw, modify,
      Object.validated_get_string. simpl. by rewrite Hot, Hdef, Hidx. }
  destruct (Object.get_property d optional_string); simpl; try done; apply Hrest.
Qed.

(** Only the keywords list and object look at the descriptor handle. *)
Lemma resolve_type_handle (po po' : option JSValue) (t : string) (prop : Property)
    (defaults : ObjectDefaults) :
  t ≠ "list" → t ≠ "object" →
  resolve_type po t prop defaults = resolve_type po' t prop defaults.
Proof.
  intros Hlist%String.eqb_neq Hobject%String.eqb_neq.
  unfold resolve_type. by rewrite Hlist, Hobject.
Qed.

(** A descriptor with a type and none of the optional fields parses as its
    bare type string does. *)
Lemma parse_property_bare_descriptor (d : JSValue) (t property_name : string)
    (defaults : ObjectDefaults) :
  Value.is_object d = true → t ≠ "list" → t ≠ "object" →
  Object.get_property d type_string = JSString t →
  Forall (λ k, Object.get_property d k = JSUndefined)
    [optional_string; default_string; indexed_string] →
  parse_property d property_name defaults
    = parse_property (JSString t) property_name defaults.
Proof.
  intros Hd Hlist Hobject Ht H.
  apply Forall_cons in H as [Hopt H]. apply Forall_cons in H as [Hdef H].
  apply Forall_cons in H as [Hidx _].
  unfold parse_property, bind.
  rewrite (read_declaration_descriptor d t) by (done || by left).
  rewrite read_declaration_bare, Hopt. simpl.
  rewrite (resolve_type_handle (Some d) None) by done.
  destruct (resolve_type None t _ defaults) as [[prop |] defaults']; [| done].
  rewrite read_descriptor_fields_descriptor by by left.
  by rewrite Hdef, Hidx.
Qed.

Lemma same_declaration_parse (n : string) (d v : JSValue) (defaults : ObjectDefaults) :
  same_declaration (n, d, v) →
  parse_property d n defaults = parse_property v n defaults.
Proof.
  intros (Hd & _ & [[Hv H] | (t & -> & Hlist & Hobject & Ht & H)]).
  - by apply parse_property_agree.
  - by apply parse_property_bare_descriptor.
Qed.

Lemma validated_get_length_array (elems : list JSValue) :
  Object.validated_get_length (JSArray elems) = Ok (length elems).
Proof. unfold Object.validated_get_length. simpl. by rewrite Nat2Z.id. Qed.

Lemma keyed_fields_names (entries : list Entry) :
  ((λ e : Entry, (e.1.1, e.2)) <$> entries).*1 = entries.*1.*1.
Proof. rewrite <- !list_fmap_compose. reflexivity. Qed.

(** The loop over an ordered list and the loop over the corresponding
    name-keyed mapping do the same. *)
Lemma parse_properties_shapes {St} (entries : list Entry)
    (locals : ObjectSchema * ObjectDefaults) (s : St) :
  NoDup entries.*1.*1 →
  Forall same_declaration entries →
  parse_properties (listed_properties entries) locals s
    = parse_properties (keyed_properties entries) locals s.
Proof.
  intros Hnd Hsame. unfold parse_properties, listed_properties, keyed_properties.
  simpl. unfold bind at 1. unfold lift at 1. rewrite validated_get_length_array.
  rewrite (for_each_seq _ _
             (λ d locals,
                property_object <- lift (Value.validated_to_object d None) ;;
                property_name <-
                  lift (Object.validated_get_string property_object name_string) ;;
                emplace_back_property property_object property_name locals)).
  2: { intros i d acc s0 Hd. unfold Object.validated_get_object_at. simpl.
       by rewrite (nth_lookup_Some _ _ _ _ Hd). }
  rewrite for_each_fmap.
  pose proof (keyed_fields_names entries) as Hkeys.
  rewrite Hkeys, unique_names_NoDup, !for_each_fmap by done.
  apply for_each_ext. intros [[n d] v] [os od] s0 Hin. simpl.
  pose proof (proj1 (Forall_forall _ _) Hsame _ Hin) as Hsame'.
  pose proof Hsame' as (Hd & Hn & _).
  unfold bind, lift, Value.validated_to_object, Object.validated_get_string.
  rewrite Hd, Hn. simpl.
  rewrite (assoc_NoDup n v).
  - unfold emplace_back_property, bind, with_local.
    by rewrite (same_declaration_parse n d v).
  - by rewrite Hkeys.
  - apply list_elem_of_fmap. by exists (n, d, v).
Qed.

(** The type chain succeeds on every type string but list and object without
    a target, and leaves the name alone. *)
Lemma resolve_type_total (property_object : option JSValue) (t : string)
    (prop : Property) (defaults : ObjectDefaults) :
  (t = "list" ∨ t = "object" →
   ∃ object X, property_object = Some object ∧
     Object.get_property object object_type_string = JSString X) →
  ∃ prop2,
    resolve_type property_object t prop defaults = (Ok prop2, defaults) ∧
    Property.name prop2 = Property.name prop.
Proof.
  intros Htarget. destruct (decide (t ∈ type_keywords)) as [Hin | Hout].
  - unfold type_keywords in Hin. simpl in Hin.
    do 7 (apply elem_of_cons in Hin as [-> | Hin];
          [eexists; split; [reflexivity | done] |]).
    apply elem_of_cons in Hin as [-> | Hin].
    { destruct Htarget as (object & X & -> & HX); [by left |].
      rewrite resolve_type_list_descriptor, HX. by eexists. }
    apply elem_of_cons in Hin as [-> | Hin]; [| by apply elem_of_nil in Hin].
    destruct Htarget as (object & X & -> & HX); [by right |].
    rewrite resolve_type_object_descriptor, HX. by eexists.
  - rewrite resolve_type_reference by done. by eexists.
Qed.

(** A declaration that is in order parses. *)
Lemma parse_property_total (attributes : JSValue) (property_name : string)
    (defaults : ObjectDefaults) :
  well_formed_declaration attributes →
  ∃ prop defaults',
    parse_property attributes property_name defaults = (Ok prop, defaults').
Proof.
  intros (t & Hd & Htarget & Ho & Hi). unfold declares in Hd.
  destruct (Value.is_object attributes) eqn:Hobj.
  - destruct (resolve_type_total (Some attributes) t
                (match Object.get_property attributes optional_string with
                 | JSBoolean b =>
                     Property.set_is_nullable b
                       (Property.set_name property_name Property.default)
                 | _ => Property.set_name property_name Property.default
                 end) defaults) as (prop2 & H2 & _).
    { intros Hk. destruct (Htarget Hk) as [X HX]. by exists attributes, X. }
    erewrite parse_property_run; [| by apply read_declaration_descriptor | exact H2].
    rewrite read_descriptor_fields_descriptor by done. by eexists _, _.
  - subst attributes.
    destruct (resolve_type_total None t
                (Property.set_name property_name Property.default) defaults)
      as (prop2 & H2 & _).
    { intros Hk. by destruct (Htarget Hk) as [X HX]. }
    erewrite parse_property_run; [| apply read_declaration_bare | exact H2].
    rewrite read_descriptor_fields_bare. by eexists _, _.
Qed.

(** A loop whose body returns, leaving the state alone, on every element it
    meets returns, leaving the state alone. *)
Lemma for_each_total {St X Acc} (xs : list X) (body : X → Acc → M St Acc)
    (acc : Acc) (s : St) :
  (∀ x acc, x ∈ xs → ∃ acc', body x acc s = (Ok acc', s)) →
  ∃ acc', for_each xs body acc s = (Ok acc', s).
Proof.
  revert acc. induction xs as [| x xs IH]; intros acc Hbody; simpl.
  - by eexists.
  - unfold bind. destruct (Hbody x acc) as [acc1 ->]; [apply list_elem_of_here |].
    apply IH. intros y acc' Hy. apply Hbody. by apply list_elem_of_further.
Qed.

(** The loop over a name-keyed mapping whose declarations are all in order
    returns. *)
Lemma keyed_properties_total {St} (entries : list Entry)
    (locals : ObjectSchema * ObjectDefaults) (s : St) :
  NoDup entries.*1.*1 →
  Forall (λ e, well_formed_declaration e.2) entries →
  ∃ locals', parse_properties (keyed_properties entries) locals s = (Ok locals', s).
Proof.
  intros Hnd Hwf. unfold parse_properties, keyed_properties. simpl.
  pose proof (keyed_fields_names entries) as Hkeys.
  rewrite Hkeys, unique_names_NoDup by done.
  apply for_each_total. intros k [os od] Hk.
  apply list_elem_of_fmap in Hk as ([n d] & -> & Hk).
  apply list_elem_of_fmap in Hk as ([[n' d'] v] & [= <- <-] & Hin). simpl.
  rewrite (assoc_NoDup n v).
  - pose proof (proj1 (Forall_forall _ _) Hwf _ Hin) as Hv. simpl in Hv.
    destruct (parse_property_total v n od Hv) as (prop & od' & Hparse).
    unfold emplace_back_property, bind, with_local, ret. rewrite Hparse.
    by eexists.
  - by rewrite Hkeys.
  - apply list_elem_of_fmap. by exists (n, d, v).
Qed.

(** C7. A type whose properties are an ordered list of descriptors, each
    carrying its name, and the same type with the name-keyed mapping of the
    same names to the same declarations in the same order parse alike: the
    same ObjectSchema with the same property sequence (or the same exception)
    and the same maps, and the stored order of the properties is the order of
    the declaration. When the type has a name, its declarations are in order
    and its primary key, if any, is one of the names, both shapes do return
    an ObjectSchema: the same one, with one property per declaration, named
    and ordered as declared. *)
Theorem parse_object_schema_shapes (fields : list (string * JSValue))
    (entries : list Entry) (maps : Maps) :
  NoDup entries.*1.*1 →
  Forall same_declaration entries →
  let listed :=
    Object.set_property (JSObject fields) properties_string (listed_properties entries) in
  let keyed :=
    Object.set_property (JSObject fields) properties_string (keyed_properties entries) in
  parse_object_schema listed maps = parse_object_schema keyed maps ∧
  (∀ os maps',
     parse_object_schema keyed maps = (Ok os, maps') →
     Property.name <$> ObjectSchema.properties os = entries.*1.*1) ∧
  ((∃ n, Object.get_property (JSObject fields) name_string = JSString n) →
   (Object.get_property (JSObject fields) primary_string = JSUndefined ∨
    ∃ pk, Object.get_property (JSObject fields) primary_string = JSString pk ∧
          pk ∈ entries.*1.*1) →
   Forall (λ e, well_formed_declaration e.2) entries →
   ∃ os maps',
     parse_object_schema listed maps = (Ok os, maps') ∧
     parse_object_schema keyed maps = (Ok os, maps') ∧
     Property.name <$> ObjectSchema.properties os = entries.*1.*1 ∧
     length (ObjectSchema.properties os) = length entries).
Proof.
  intros Hnd Hsame listed keyed.
  assert (parse_object_schema listed maps = parse_object_schema keyed maps) as Heq.
  { assert (parse_name_and_properties listed maps
            = parse_name_and_properties keyed maps) as H2.
    { unfold parse_name_and_properties, bind, lift, Object.validated_get_string,
        Object.validated_get_object. subst listed keyed. simpl.
      rewrite !assoc_assoc_set_eq, !assoc_assoc_set_ne by done.
      destruct (Value.validated_to_string _ _); [| done]. simpl.
      by apply parse_properties_shapes. }
    assert (∀ os, resolve_primary_key listed os maps
                  = resolve_primary_key keyed os maps) as H3.
    { intros os. unfold resolve_primary_key. subst listed keyed. simpl.
      by rewrite !assoc_assoc_set_ne. }
    unfold parse_object_schema, bind.
    change (resolve_constructor listed maps)
      with (Ok (@None JSValue, listed), maps).
    change (resolve_constructor keyed maps)
      with (Ok (@None JSValue, keyed), maps).
    simpl. rewrite H2.
    destruct (parse_name_and_properties keyed maps) as [[[os od] |] maps2] eqn:Hk;
      [| done].
    apply parse_name_and_properties_state in Hk as ->. by rewrite H3. }
  assert (∀ os maps',
            parse_object_schema keyed maps = (Ok os, maps') →
            Property.name <$> ObjectSchema.properties os = entries.*1.*1) as Hnames.
  { intros os maps' H. apply parse_object_schema_names_inv in H.
    unfold declared_properties, schema_descriptor in H. subst keyed. simpl in H.
    rewrite assoc_assoc_set_eq in H. simpl in H. rewrite H.
    rewrite keyed_fields_names. by apply unique_names_NoDup. }
  split; [done |]. split; [done |].
  intros [n Hn] Hprimary Hwf.
  assert (∃ os maps', parse_object_schema keyed maps = (Ok os, maps'))
    as (os & maps' & Hkeyed).
  { assert (∃ os0 od, parse_name_and_properties keyed maps = (Ok (os0, od), maps))
      as (os0 & od & H2).
    { unfold parse_name_and_properties, bind, lift, Object.validated_get_string,
        Object.validated_get_object. subst keyed. simpl.
      rewrite assoc_assoc_set_eq, assoc_assoc_set_ne by done.
      simpl in Hn. rewrite Hn. simpl.
      destruct (keyed_properties_total entries
                  (ObjectSchema.set_name n ObjectSchema.default, ∅) maps Hnd Hwf)
        as ([os0 od] & H).
      by exists os0, od. }
    pose proof (parse_name_and_properties_inv _ _ _ _ _ H2) as (_ & _ & _ & H0).
    assert (Property.name <$> ObjectSchema.properties os0 = entries.*1.*1) as Hn0.
    { subst keyed. simpl in H0. rewrite assoc_assoc_set_eq in H0. simpl in H0.
      rewrite H0, keyed_fields_names. by apply unique_names_NoDup. }
    assert (∃ os1, resolve_primary_key keyed os0 maps = (Ok os1, maps))
      as (os1 & H3).
    { unfold resolve_primary_key, bind, lift, ret, throw. subst keyed. simpl.
      rewrite assoc_assoc_set_ne by done. simpl in Hprimary.
      destruct Hprimary as [-> | (pk & -> & Hpk)]; simpl; [by eexists |].
      unfold ObjectSchema.primary_key_property, ObjectSchema.property_for_name.
      simpl. destruct (list_find _ _) as [[i p] |] eqn:Hfind; [by eexists |].
      apply list_find_None in Hfind. rewrite <- Hn0 in Hpk.
      apply list_elem_of_fmap in Hpk as (p & Hp & Hin).
      by eapply (proj1 (Forall_forall _ _) Hfind) in Hin. }
    unfold parse_object_schema, bind.
    change (resolve_constructor keyed maps)
      with (Ok (@None JSValue, keyed), maps).
    simpl. rewrite H2, H3, commit_ok. by eexists _, _. }
  exists os, maps'. rewrite Heq. split; [done |]. split; [done |].
  pose proof (Hnames os maps' Hkeyed) as Hos. split; [done |].
  by rewrite <- (length_fmap Property.name), Hos, !length_fmap.
Qed.

Lemma parse_object_schema_shapes_witness :
  ∃ os maps',
    parse_object_schema
      (Object.set_property
         (JSObject [("name", JSString "Dog"); ("primaryKey", JSString "id")])
         properties_string
         (listed_properties
            [("id", JSObject [("name", JSString "id"); ("type", JSString "int")],
              JSString "int");
             ("tags", JSObject [("name", JSString "tags"); ("type", JSString "list");
                                ("objectType", JSString "Tag")],
              JSObject [("type", JSString "list"); ("objectType", JSString "Tag")])]))
      (∅, ∅) = (Ok os, maps') ∧
    parse_object_schema
      (Object.set_property
         (JSObject [("name", JSString "Dog"); ("primaryKey", JSString "id")])
         properties_string
         (keyed_properties
            [("id", JSObject [("name", JSString "id"); ("type", JSString "int")],
              JSString "int");
             ("tags", JSObject [("name", JSString "tags"); ("type", JSString "list");
                                ("objectType", JSString "Tag")],
              JSObject [("type", JSString "list"); ("objectType", JSString "Tag")])]))
      (∅, ∅) = (Ok os, maps') ∧
    Property.name <$> ObjectSchema.properties os = ["id"; "tags"] ∧
    length (ObjectSchema.properties os) = 2%nat.
Proof.
  apply (parse_object_schema_shapes
           [("name", JSString "Dog"); ("primaryKey", JSString "id")]
           [("id", JSObject [("name", JSString "id"); ("type", JSString "int")],
             JSString "int");
            ("tags", JSObject [("name", JSString "tags"); ("type", JSString "list");
                               ("objectType", JSString "Tag")],
             JSObject [("type", JSString "list"); ("objectType", JSString "Tag")])]
           (∅, ∅)).
  - apply (bool_decide_unpack _). reflexivity.
  - apply Forall_cons. split; [| apply Forall_cons; split; [| by apply Forall_nil]].
    + split; [reflexivity |]. split; [reflexivity |].
      right. exists "int". repeat split; try discriminate. by repeat constructor.
    + split; [reflexivity |]. split; [reflexivity |].
      left. split; [reflexivity |]. by repeat constructor.
  - by exists "Dog".
  - right. exists "id". split; [reflexivity | apply list_elem_of_here].
  - apply Forall_cons. split; [| apply Forall_cons; split; [| by apply Forall_nil]].
    + exists "int". split; [reflexivity |]. split; [| split; by left].
      intros [H | H]; discriminate.
    + exists "list". split; [reflexivity |]. split; [| split; by left].
      intros _. by exists "Tag".
Defined.

(** ** [parse_schema] *)

Lemma emplace_subseteq {V} (key : string) (value : V) (m : gmap string V) :
  m ⊆ emplace key value m.
Proof.
  unfold emplace. destruct (m !! key) eqn:Hk; [done |]. by apply insert_subseteq.
Qed.

Lemma emplace_is_Some {V} (key : string) (value : V) (m : gmap string V) :
  is_Some (emplace key value m !! key).
Proof.
  unfold emplace. destruct (m !! key) eqn:Hk; [by rewrite Hk |].
  by rewrite lookup_insert_eq.
Qed.

Lemma parse_schema_array (elements : list JSValue) (maps : Maps) :
  parse_schema (JSArray elements) maps =
    match for_each elements parse_element [] maps with
    | (Ok schema, maps') => (Ok (make_Schema schema), maps')
    | (Throw e, maps') => (Throw e, maps')
    end.
Proof.
  unfold parse_schema, bind at 1. unfold lift at 1.
  rewrite validated_get_length_array. unfold bind at 1.
  rewrite (for_each_seq _ _ parse_element); [done |].
  intros i x acc s Hx. unfold parse_element, Object.validated_get_object_at. simpl.
  by rewrite (nth_lookup_Some _ _ _ _ Hx).
Qed.

(** What the loop of [parse_schema] leaves in the maps: nothing that was there
    is lost, and every parsed declaration has its entry. *)
Lemma for_each_parse_element (elements : list JSValue) (schema schema' : list ObjectSchema)
    (maps maps' : Maps) :
  for_each elements parse_element schema maps = (Ok schema', maps') →
  ∃ new,
    schema' = (schema ++ new)%list ∧ maps.1 ⊆ maps'.1 ∧ maps.2 ⊆ maps'.2 ∧
    Forall2 (λ decl os,
               is_Some (maps'.1 !! ObjectSchema.name os) ∧
               (Value.is_constructor decl = true →
                is_Some (maps'.2 !! ObjectSchema.name os)))
      elements new.
Proof.
  revert schema maps. induction elements as [| d elements IH]; intros schema maps.
  - intros [= <- <-]. exists []. by rewrite app_nil_r.
  - simpl. unfold bind at 1.
    destruct (parse_element d schema maps) as [[schema1 |] maps1] eqn:Hd;
      [| discriminate].
    unfold parse_element, bind, lift, ret in Hd.
    destruct (Value.validated_to_object d None) as [o |] eqn:Ho; [| discriminate].
    apply validated_to_object_inv in Ho as [-> _].
    pose proof (parse_object_schema_maps d maps) as Hmaps.
    destruct (parse_object_schema d maps) as [[os |] maps2]; [| discriminate].
    injection Hd as <- <-. destruct Hmaps as (od & Hdefaults & Hconstructors).
    intros (new & -> & Hsub1 & Hsub2 & Hnew)%IH.
    exists (os :: new). rewrite <- app_assoc. split; [done |].
    assert (maps.1 ⊆ maps2.1) as Hstep1
      by (rewrite Hdefaults; apply emplace_subseteq).
    assert (maps.2 ⊆ maps2.2) as Hstep2
      by (rewrite Hconstructors; destruct (Value.is_constructor d);
          [apply emplace_subseteq | done]).
    split; [by etrans |]. split; [by etrans |].
    constructor; [| done]. split.
    + eapply lookup_weaken_is_Some; [| exact Hsub1].
      rewrite Hdefaults. apply emplace_is_Some.
    + intros Hc. eapply lookup_weaken_is_Some; [| exact Hsub2].
      rewrite Hconstructors, Hc. apply emplace_is_Some.
Qed.

(** C5. When the declarations before the k-th have parsed and the k-th fails
    (it is not an object, or [parse_object_schema] throws on it),
    [parse_schema] throws that exception and returns no Schema, and the maps
    are left exactly as the earlier declarations left them: nothing that was
    in them before the call is lost, the defaults of every earlier declaration
    are entered under its name, and so is the constructor of every earlier
    declaration that is one. *)
Theorem parse_schema_partial_commit (earlier later : list JSValue) (failing : JSValue)
    (maps committed : Maps) (schema : Schema) (e : Exception) :
  parse_schema (JSArray earlier) maps = (Ok schema, committed) →
  (Value.is_object failing = true ∧
   (parse_object_schema failing committed).1 = Throw e) ∨
  (Value.is_object failing = false ∧ e = Value.type_error None "object") →
  parse_schema (JSArray (earlier ++ failing :: later)) maps = (Throw e, committed) ∧
  maps.1 ⊆ committed.1 ∧ maps.2 ⊆ committed.2 ∧
  Forall2 (λ decl os,
             is_Some (committed.1 !! ObjectSchema.name os) ∧
             (Value.is_constructor decl = true →
              is_Some (committed.2 !! ObjectSchema.name os)))
    earlier schema.
Proof.
  intros H1 Hfail. rewrite parse_schema_array in H1 |- *.
  destruct (for_each earlier parse_element [] maps) as [[schema0 |] maps0] eqn:He;
    [| discriminate].
  injection H1 as <- <-.
  apply for_each_parse_element in He as Hcommitted.
  destruct Hcommitted as (new & [= ->] & Hsub1 & Hsub2 & Hnew).
  split; [| done].
  rewrite for_each_app, He. simpl. unfold bind at 1.
  unfold parse_element, bind, lift, Value.validated_to_object.
  destruct Hfail as [[-> Hthrow] | [-> ->]]; [| done].
  pose proof (parse_object_schema_maps failing maps0) as Hmaps.
  destruct (parse_object_schema failing maps0) as [[os |] maps1]; [done |].
  simpl in Hthrow. injection Hthrow as ->. by rewrite Hmaps.
Qed.

Lemma parse_schema_partial_commit_witness :
  parse_schema
    (JSArray ([JSFunction [("schema", dog_with_id)]] ++ dog_without_id :: [JSNull]))
    (∅, ∅)
  = (Throw (runtime_error "Missing primary key property 'id'"),
     ({["Dog" := ∅]}, {["Dog" := JSFunction [("schema", dog_with_id)]]})).
Proof.
  apply (parse_schema_partial_commit
           [JSFunction [("schema", dog_with_id)]] [JSNull] dog_without_id (∅, ∅)
           ({["Dog" := ∅]}, {["Dog" := JSFunction [("schema", dog_with_id)]]})
           [ObjectSchema.mk "Dog"
              [Property.mk "id" PropertyTypeInt "" true false false;
               Property.mk "name" PropertyTypeString "" false false false] "id"]).
  - reflexivity.
  - left. split; reflexivity.
Defined.

(** ** [dict_for_property_array] *)

Lemma elem_of_unique_names (k : string) (names : list string) :
  k ∈ unique_names names ↔ k ∈ names.
Proof.
  induction names as [| x names IH]; simpl; [done |].
  rewrite !elem_of_cons, list_elem_of_filter, IH.
  destruct (decide (k = x)); tauto.
Qed.

Lemma unique_names_snoc (names : list string) (k : string) :
  unique_names (names ++ [k]) =
    if decide (k ∈ names) then unique_names names else (unique_names names ++ [k])%list.
Proof.
  induction names as [| x names IH]; simpl.
  - by rewrite filter_nil.
  - rewrite IH. destruct (decide (k ∈ names)) as [Hin | Hout].
    + by rewrite decide_True by by apply list_elem_of_further.
    + rewrite filter_app. destruct (decide (k = x)) as [-> | Hne].
      * rewrite decide_True by apply list_elem_of_here.
        rewrite filter_cons_False by (by intros ?). by rewrite filter_nil, app_nil_r.
      * rewrite decide_False by (rewrite elem_of_cons; tauto).
        by rewrite filter_cons_True.
Qed.

Lemma assoc_set_names (key : string) (value : JSValue) (fields : list (string * JSValue)) :
  (assoc_set key value fields).*1 =
    if decide (key ∈ fields.*1) then fields.*1 else (fields.*1 ++ [key])%list.
Proof.
  induction fields as [| [k v] fields IH]; [done |].
  cbn [assoc_set]. destruct (k =? key) eqn:Hk; rewrite !fmap_cons; cbn [fst].
  - apply String.eqb_eq in Hk as ->. by rewrite decide_True by apply list_elem_of_here.
  - apply String.eqb_neq in Hk. rewrite IH.
    destruct (decide (key ∈ fields.*1)) as [Hin | Hout].
    + by rewrite decide_True by by apply list_elem_of_further.
    + by rewrite decide_False by (rewrite elem_of_cons; intros [-> | ?]; done).
Qed.

(** The dict after the first [k] rounds of the loop. *)
Lemma dict_loop (properties : list Property) (array : JSValue) (k : nat) :
  (k ≤ length properties)%nat →
  ∃ fields,
    foldl (λ dict i,
             Object.set_property dict
               (Property.name (nth i properties Property.default))
               (Object.get_property_at array i))
      Object.create_empty (seq 0 k) = JSObject fields ∧
    fields.*1 = unique_names (Property.name <$> take k properties) ∧
    ∀ i p, (i < k)%nat → properties !! i = Some p →
      (∀ j q, (i < j < k)%nat → properties !! j = Some q →
              Property.name q ≠ Property.name p) →
      assoc (Property.name p) fields = Object.get_property_at array i.
Proof.
  induction k as [| k IH]; intros Hk.
  - exists []. split; [done |]. split; [by rewrite take_0 | lia].
  - destruct IH as (fields & Hdict & Hnames & Hvalues); [lia |].
    destruct (lookup_lt_is_Some_2 properties k) as [pk Hpk]; [lia |].
    rewrite seq_S, foldl_app, Hdict. simpl.
    rewrite (nth_lookup_Some _ _ _ _ Hpk).
    eexists. split; [reflexivity |]. split.
    + rewrite assoc_set_names, Hnames, (take_S_r _ _ _ Hpk), fmap_app. simpl.
      rewrite unique_names_snoc.
      repeat case_decide; try done; exfalso;
        match goal with H : _ |- _ => rewrite elem_of_unique_names in H end; done.
    + intros i p Hi Hp Hlater. destruct (decide (i = k)) as [-> | Hne].
      * rewrite Hpk in Hp. injection Hp as ->. apply assoc_assoc_set_eq.
      * rewrite assoc_assoc_set_ne by (eapply Hlater; [| done]; lia).
        apply Hvalues; [lia | done |]. intros j q Hj. apply Hlater. lia.
Qed.

(** C3, as stated, fails when the ObjectSchema repeats a property name, as
    the one parsed from an ordered list that repeats it does: the name is
    mapped to the element at its last position, not to the element at
    position 0. *)
Lemma dict_for_property_array_repeated_name :
  ∃ os maps' dict,
    parse_object_schema twice_a (∅, ∅) = (Ok os, maps') ∧
    Property.name <$> ObjectSchema.properties os !! 0%nat = Some "a" ∧
    dict_for_property_array os (JSArray [JSNumber 1; JSString "b"]) = Ok dict ∧
    Object.get_property dict "a" = JSString "b" ∧
    Object.get_property dict "a"
      ≠ Object.get_property_at (JSArray [JSNumber 1; JSString "b"]) 0.
Proof. eexists _, _, _. repeat split; try reflexivity. discriminate. Qed.

(** C3, amended. For an array (any object with a valid length):
    [dict_for_property_array] fails with the runtime error "Array must contain
    values for all object properties" whenever the length differs from the
    number of properties; when the lengths match it returns a fresh mapping
    whose field names are the property names, each once, in declaration
    order, and in which the name of the i-th property is mapped to the i-th
    array element for every index i whose name is not repeated at a later
    index, hence for every index when the property names are pairwise
    distinct. *)
Theorem dict_for_property_array_spec (os : ObjectSchema) (array : JSValue) (n : nat) :
  Object.validated_get_length array = Ok n →
  let properties := ObjectSchema.properties os in
  (length properties ≠ n →
   dict_for_property_array os array
     = Throw (runtime_error "Array must contain values for all object properties")) ∧
  (length properties = n →
   ∃ dict,
     dict_for_property_array os array = Ok dict ∧
     Object.get_property_names dict = unique_names (Property.name <$> properties) ∧
     (∀ i p, properties !! i = Some p →
        (∀ j q, (i < j)%nat → properties !! j = Some q →
                Property.name q ≠ Property.name p) →
        Object.get_property dict (Property.name p) = Object.get_property_at array i) ∧
     (NoDup (Property.name <$> properties) →
      ∀ i p, properties !! i = Some p →
        Object.get_property dict (Property.name p) = Object.get_property_at array i)).
Proof.
  intros Hlen properties. unfold dict_for_property_array. rewrite Hlen.
  fold properties. split.
  - intros Hne. by apply Nat.eqb_neq in Hne as ->.
  - intros <-. rewrite Nat.eqb_refl. simpl.
    destruct (dict_loop properties array (length properties))
      as (fields & -> & Hnames & Hvalues); [done |].
    rewrite firstn_all in Hnames.
    assert (∀ i p, properties !! i = Some p →
              (∀ j q, (i < j)%nat → properties !! j = Some q →
                      Property.name q ≠ Property.name p) →
              assoc (Property.name p) fields = Object.get_property_at array i)
      as Hlast.
    { intros i p Hp Hlater. apply Hvalues; [by eapply lookup_lt_Some | done |].
      intros j q [Hj _]. by apply Hlater. }
    eexists. split; [reflexivity |]. simpl. split; [| split; [done |]].
    + rewrite Hnames. apply unique_names_NoDup, NoDup_unique_names.
    + intros Hnd i p Hp. apply Hlast; [done |]. intros j q Hj Hq Heq.
      assert (i = j); [| lia].
      eapply (NoDup_lookup _ _ _ _ Hnd); rewrite list_lookup_fmap;
        [by rewrite Hp | rewrite Hq; simpl; by rewrite Heq].
Qed.

Lemma dict_for_property_array_spec_witness :
  ∃ dict,
    dict_for_property_array
      (ObjectSchema.mk "Dog"
         [Property.mk "id" PropertyTypeInt "" true false false;
          Property.mk "name" PropertyTypeString "" false false false] "id")
      (JSArray [JSNumber 7; JSString "Rex"]) = Ok dict ∧
    Object.get_property_names dict = unique_names ["id"; "name"] ∧
    (∀ i p,
       [Property.mk "id" PropertyTypeInt "" true false false;
        Property.mk "name" PropertyTypeString "" false false false] !! i = Some p →
       (∀ j q, (i < j)%nat →
          [Property.mk "id" PropertyTypeInt "" true false false;
           Property.mk "name" PropertyTypeString "" false false false] !! j = Some q →
          Property.name q ≠ Property.name p) →
       Object.get_property dict (Property.name p)
         = Object.get_property_at (JSArray [JSNumber 7; JSString "Rex"]) i) ∧
    (NoDup ["id"; "name"] →
     ∀ i p,
       [Property.mk "id" PropertyTypeInt "" true false false;
        Property.mk "name" PropertyTypeString "" false false false] !! i = Some p →
       Object.get_property dict (Property.name p)
         = Object.get_property_at (JSArray [JSNumber 7; JSString "Rex"]) i).
Proof.
  apply (dict_for_property_array_spec
           (ObjectSchema.mk "Dog"
              [Property.mk "id" PropertyTypeInt "" true false false;
               Property.mk "name" PropertyTypeString "" false false false] "id")
           (JSArray [JSNumber 7; JSString "Rex"]) 2).
  - reflexivity.
  - reflexivity.
Defined.

(** * Further properties *)

(** ** [parse_property]: what a returned Property holds *)

Lemma read_declaration_flag (attributes : JSValue) (property_name : string)
    (prop' : Property) (property_object : option JSValue) (t : string)
    (defaults defaults' : ObjectDefaults) :
  read_declaration attributes (Property.set_name property_name Property.default) defaults
    = (Ok (property_object, t, prop'), defaults') →
  prop' = Property.set_is_nullable
            (flag (Object.get_property attributes optional_string))
            (Property.set_name property_name Property.default).
Proof.
  unfold read_declaration, bind, lift, ret, Value.validated_to_object,
    Object.validated_get_string.
  destruct (Value.is_object attributes) eqn:Hobj.
  - destruct (Object.get_property attributes type_string); simpl; try discriminate.
    destruct (Object.get_property attributes optional_string); simpl;
      try discriminate; by intros [= <- <- <- <-].
  - destruct attributes; simpl; try discriminate. by intros [= <- <- <- <-].
Qed.

Lemma read_descriptor_fields_result (property_object : option JSValue)
    (prop prop' : Property) (defaults defaults' : ObjectDefaults) :
  Property.is_indexed prop = false →
  read_descriptor_fields property_object prop defaults = (Ok prop', defaults') →
  match property_object with
  | Some object =>
      prop' = Property.set_is_indexed
                (flag (Object.get_property object indexed_string)) prop ∧
      defaults' =
        (if Value.is_undefined (Object.get_property object default_string)
         then defaults
         else emplace (Property.name prop) (Object.get_property object default_string)
                defaults)
  | None => prop' = prop ∧ defaults' = defaults
  end.
Proof.
  intros Hidx. unfold read_descriptor_fields, bind, lift, ret, modify.
  destruct property_object as [object |]; simpl; [| by intros [= <- <-]].
  destruct (Value.is_undefined (Object.get_property object default_string)); simpl;
    destruct (Object.get_property object indexed_string); simpl;
    try discriminate; intros [= <- <-]; split; try done;
    destruct prop; simpl in *; by subst.
Qed.

(** The whole of a successful [parse_property]: the type resolution applied to
    the named Property with its [optional] flag, then the [indexed] flag, and
    the defaults with the declared default emplaced. *)
Lemma parse_property_result (attributes : JSValue) (property_name : string)
    (defaults defaults' : ObjectDefaults) (prop : Property) :
  parse_property attributes property_name defaults = (Ok prop, defaults') →
  ∃ t prop2,
    declares attributes t ∧
    resolved (if Value.is_object attributes then Some attributes else None) t
      (Property.set_is_nullable (flag (Object.get_property attributes optional_string))
         (Property.set_name property_name Property.default))
      prop2 ∧
    prop = Property.set_is_indexed
             (flag (Object.get_property attributes indexed_string)) prop2 ∧
    defaults' = match declared_default attributes with
                | Some v => emplace property_name v defaults
                | None => defaults
                end.
Proof.
  unfold parse_property, bind.
  destruct (read_declaration attributes _ defaults) as [[[[po t] prop1] |] defaults1]
    eqn:H1; [| discriminate].
  pose proof (read_declaration_flag _ _ _ _ _ _ _ H1) as ->.
  apply read_declaration_inv in H1 as (-> & Hd & -> & _).
  destruct (resolve_type _ t _ defaults) as [[prop2 |] defaults2] eqn:H2;
    [| discriminate].
  apply resolve_type_inv in H2 as [-> H2].
  pose proof (resolved_unchanged _ _ _ _ H2) as [Hname _].
  assert (Property.is_indexed prop2 = false) as Hidx by by destruct H2.
  intros H3. apply read_descriptor_fields_result in H3; [| done].
  exists t, prop2. split; [done |]. split; [done |].
  unfold declared_default.
  destruct (Value.is_object attributes) eqn:Hobj.
  - destruct H3 as [-> ->]. split; [done |]. rewrite Hname. simpl.
    by destruct (Value.is_undefined _).
  - destruct H3 as [-> ->]. split; [| done].
    destruct attributes; try done; destruct prop2; simpl in *; by subst.
Qed.

(** X5. Every Property [parse_property] returns carries the given name, is
    not primary, is indexed exactly when the descriptor's [indexed] field is
    true, and is nullable exactly when it is of the object kind or the
    descriptor's [optional] field is true. *)
Theorem parse_property_flags (attributes : JSValue) (property_name : string)
    (defaults defaults' : ObjectDefaults) (prop : Property) :
  parse_property attributes property_name defaults = (Ok prop, defaults') →
  Property.name prop = property_name ∧
  Property.is_primary prop = false ∧
  Property.is_indexed prop = flag (Object.get_property attributes indexed_string) ∧
  Property.is_nullable prop =
    match Property.type prop with
    | PropertyTypeObject => true
    | _ => flag (Object.get_property attributes optional_string)
    end.
Proof.
  intros (t & prop2 & _ & Hr & -> & _)%parse_property_result.
  destruct Hr as [K HK | object s -> _ _ | object s -> _ _ | _]; simpl;
    repeat split.
  unfold scalar_keywords in HK.
  repeat (apply elem_of_cons in HK as [[= _ ->] | HK]; [done |]).
  by apply elem_of_nil in HK.
Qed.

Lemma parse_property_flags_witness :
  Property.name (Property.mk "tags" PropertyTypeArray "Tag" false true true) = "tags" ∧
  Property.is_primary (Property.mk "tags" PropertyTypeArray "Tag" false true true)
    = false ∧
  Property.is_indexed (Property.mk "tags" PropertyTypeArray "Tag" false true true)
    = flag (Object.get_property
              (JSObject [("type", JSString "list"); ("objectType", JSString "Tag");
                         ("optional", JSBoolean true); ("indexed", JSBoolean true)])
              indexed_string) ∧
  Property.is_nullable (Property.mk "tags" PropertyTypeArray "Tag" false true true)
    = flag (Object.get_property
              (JSObject [("type", JSString "list"); ("objectType", JSString "Tag");
                         ("optional", JSBoolean true); ("indexed", JSBoolean true)])
              optional_string).
Proof.
  apply (parse_property_flags
           (JSObject [("type", JSString "list"); ("objectType", JSString "Tag");
                      ("optional", JSBoolean true); ("indexed", JSBoolean true)])
           "tags" ∅ ∅).
  reflexivity.
Defined.

(** X2. A successful [parse_property] touches the defaults in one way only:
    when the descriptor has a [default] field that is not undefined (null
    counts), the value is emplaced under the property name, so it is the entry
    of that name unless one was there already, which is then kept; every other
    entry is as it was, and without such a field, or in the bare form, the
    defaults are unchanged. *)
Theorem parse_property_defaults (attributes : JSValue) (property_name : string)
    (defaults defaults' : ObjectDefaults) (prop : Property) :
  parse_property attributes property_name defaults = (Ok prop, defaults') →
  (∀ k, k ≠ property_name → defaults' !! k = defaults !! k) ∧
  defaults' !! property_name =
    match defaults !! property_name with
    | Some kept => Some kept
    | None => declared_default attributes
    end.
Proof.
  intros (t & prop2 & _ & _ & _ & ->)%parse_property_result.
  destruct (declared_default attributes) as [v |]; unfold emplace.
  - destruct (defaults !! property_name) eqn:Hk; split; try done.
    + intros k Hne. by rewrite lookup_insert_ne.
    + by rewrite lookup_insert_eq.
  - split; [done |]. by destruct (defaults !! property_name).
Qed.

Lemma parse_property_defaults_witness :
  (∀ k, k ≠ "age" →
        ({["age" := JSNull; "name" := JSString "Rex"]} : ObjectDefaults) !! k
        = ({["name" := JSString "Rex"]} : ObjectDefaults) !! k) ∧
  ({["age" := JSNull; "name" := JSString "Rex"]} : ObjectDefaults) !! "age"
    = match ({["name" := JSString "Rex"]} : ObjectDefaults) !! "age" with
      | Some kept => Some kept
      | None =>
          declared_default (JSObject [("type", JSString "int"); ("default", JSNull)])
      end.
Proof.
  apply (parse_property_defaults
           (JSObject [("type", JSString "int"); ("default", JSNull)]) "age"
           {["name" := JSString "Rex"]} _
           (Property.mk "age" PropertyTypeInt "" false false false)).
  reflexivity.
Defined.

(** ** [parse_property]: the keyword object *)

(** X1. The keyword object resolves like list: its bare form fails with the
    runtime error "Object property must specify 'objectType'", and a descriptor
    with [objectType] = X parses to a Property of the object kind with
    [object_type] = X that is nullable whatever its [optional] field says. *)
Theorem parse_property_object_keyword
    (attributes : JSValue) (property_name : string) (defaults : ObjectDefaults) :
  declares attributes "object" →
  flags_well_typed attributes →
  (Value.is_object attributes = false →
   parse_property attributes property_name defaults
     = (Throw (runtime_error "Object property must specify 'objectType'"), defaults)) ∧
  (∀ X, Object.get_property attributes object_type_string = JSString X →
   ∃ prop defaults',
     parse_property attributes property_name defaults = (Ok prop, defaults') ∧
     Property.type prop = PropertyTypeObject ∧
     Property.object_type prop = X ∧
     Property.is_nullable prop = true).
Proof.
  intros Hd [Ho Hi]. unfold declares in Hd.
  destruct (Value.is_object attributes) eqn:Hobj.
  - split; [discriminate |]. intros X HX.
    erewrite parse_property_run;
      [| by apply read_declaration_descriptor
       | by rewrite resolve_type_object_descriptor, HX].
    rewrite read_descriptor_fields_descriptor by done.
    eexists _, _. split; [reflexivity |].
    by destruct Ho as [-> | [b ->]], Hi as [-> | [b' ->]].
  - subst attributes. split; [done |]. by intros X [=].
Qed.

Lemma parse_property_object_keyword_witness :
  ∃ prop defaults',
    parse_property
      (JSObject [("type", JSString "object"); ("objectType", JSString "Dog");
                 ("optional", JSBoolean false)])
      "pet" ∅ = (Ok prop, defaults') ∧
    Property.type prop = PropertyTypeObject ∧
    Property.object_type prop = "Dog" ∧
    Property.is_nullable prop = true.
Proof.
  apply (parse_property_object_keyword
           (JSObject [("type", JSString "object"); ("objectType", JSString "Dog");
                      ("optional", JSBoolean false)])
           "pet" ∅).
  - reflexivity.
  - split; [right; by exists false | by left].
  - reflexivity.
Defined.

(** ** [parse_property]: the order of its checks *)

(** X6. A declaration that is neither an object nor a string, and a descriptor
    whose [type] field is not a string, are rejected by the string coercion
    before anything else is looked at; the defaults are as they were. *)
Theorem parse_property_type_not_string
    (attributes : JSValue) (property_name : string) (defaults : ObjectDefaults) :
  Value.is_string
    (if Value.is_object attributes
     then Object.get_property attributes type_string else attributes) = false →
  parse_property attributes property_name defaults
    = (Throw (Value.type_error
                (if Value.is_object attributes then Some "type" else None) "string"),
       defaults).
Proof.
  intros Hs. unfold parse_property, read_declaration, bind, lift,
    Value.validated_to_object, Object.validated_get_string.
  destruct (Value.is_object attributes) eqn:Hobj.
  - by destruct (Object.get_property attributes type_string).
  - by destruct attributes.
Qed.

Lemma parse_property_type_not_string_witness :
  parse_property (JSObject [("optional", JSBoolean true)]) "age" ∅
    = (Throw (Value.type_error (Some "type") "string"), ∅).
Proof.
  apply (parse_property_type_not_string (JSObject [("optional", JSBoolean true)])
           "age" ∅).
  reflexivity.
Defined.

(** X3. The [optional] field is validated before the type string is looked
    at: a descriptor whose [optional] field is present and not a boolean is
    rejected with the coercion error naming optional, whatever its type, even
    one that would fail on its own, and the defaults are as they were. *)
Theorem parse_property_optional_not_boolean
    (attributes : JSValue) (t property_name : string) (defaults : ObjectDefaults) :
  Value.is_object attributes = true →
  Object.get_property attributes type_string = JSString t →
  not_a_boolean (Object.get_property attributes optional_string) →
  parse_property attributes property_name defaults
    = (Throw (Value.type_error (Some "optional") "boolean"), defaults).
Proof.
  intros Hobj Ht [Hu Hb]. unfold parse_property, read_declaration, bind, lift,
    Value.validated_to_object, Object.validated_get_string.
  rewrite Hobj, Ht. simpl.
  by destruct (Object.get_property attributes optional_string).
Qed.

Lemma parse_property_optional_not_boolean_witness :
  parse_property (JSObject [("type", JSString "list"); ("optional", JSString "yes")])
    "tags" ∅
  = (Throw (Value.type_error (Some "optional") "boolean"), ∅).
Proof.
  apply (parse_property_optional_not_boolean
           (JSObject [("type", JSString "list"); ("optional", JSString "yes")])
           "list" "tags" ∅).
  - reflexivity.
  - reflexivity.
  - split; reflexivity.
Defined.

(** X4. The [indexed] field is validated last, after the default has been
    stored: a descriptor that is in order (a list or object descriptor naming
    its target included) but for an [indexed] field that is present and not a
    boolean is rejected with the coercion error, and by then its default, if
    it declares one, is already emplaced in the defaults. *)
Theorem parse_property_indexed_not_boolean
    (attributes : JSValue) (t property_name : string) (defaults : ObjectDefaults) :
  Value.is_object attributes = true →
  Object.get_property attributes type_string = JSString t →
  names_target attributes t →
  boolean_or_absent (Object.get_property attributes optional_string) →
  not_a_boolean (Object.get_property attributes indexed_string) →
  parse_property attributes property_name defaults
    = (Throw (Value.type_error None "boolean"),
       match declared_default attributes with
       | Some v => emplace property_name v defaults
       | None => defaults
       end).
Proof.
  intros Hobj Ht Htarget Ho [Hu Hb].
  destruct (resolve_type_total (Some attributes) t
              (match Object.get_property attributes optional_string with
               | JSBoolean b =>
                   Property.set_is_nullable b
                     (Property.set_name property_name Property.default)
               | _ => Property.set_name property_name Property.default
               end) defaults) as (prop2 & H2 & Hname).
  { intros Hk. destruct (Htarget Hk) as [X HX]. by exists attributes, X. }
  assert (Property.name prop2 = property_name) as Hname'
    by (rewrite Hname; by destruct Ho as [-> | [b ->]]).
  erewrite parse_property_run; [| by apply read_declaration_descriptor | exact H2].
  unfold read_descriptor_fields, declared_default, bind, lift, modify, ret.
  rewrite Hobj, Hname'. simpl.
  destruct (Value.is_undefined (Object.get_property attributes default_string));
    simpl; by destruct (Object.get_property attributes indexed_string).
Qed.

Lemma parse_property_indexed_not_boolean_witness :
  parse_property
    (JSObject [("type", JSString "list"); ("objectType", JSString "Tag");
               ("default", JSNull); ("indexed", JSString "yes")])
    "tags" ∅
  = (Throw (Value.type_error None "boolean"), emplace "tags" JSNull ∅).
Proof.
  apply (parse_property_indexed_not_boolean
           (JSObject [("type", JSString "list"); ("objectType", JSString "Tag");
                      ("default", JSNull); ("indexed", JSString "yes")])
           "list" "tags" ∅).
  - reflexivity.
  - reflexivity.
  - intros _. by exists "Tag".
  - by left.
  - split; reflexivity.
Defined.

(** X7. [parse_property] looks at five fields of a descriptor and at nothing
    else: two descriptors that agree on [type], [optional], [objectType],
    [default] and [indexed] parse alike under the same name, to the same
    Property or the same exception and the same defaults, whatever else they
    hold (a [name] field among the rest). *)
Theorem parse_property_reads_five_fields (d v : JSValue) (property_name : string)
    (defaults : ObjectDefaults) :
  Value.is_object d = true → Value.is_object v = true →
  (∀ k, k ∈ [type_string; optional_string; object_type_string; default_string;
             indexed_string] →
        Object.get_property v k = Object.get_property d k) →
  parse_property d property_name defaults = parse_property v property_name defaults.
Proof.
  intros Hd Hv H. apply parse_property_agree; [done | done |].
  apply Forall_forall. intros k Hk. by apply H.
Qed.

Lemma parse_property_reads_five_fields_witness :
  parse_property
    (JSObject [("name", JSString "age"); ("type", JSString "int");
               ("default", JSNumber 1)])
    "age" ∅
  = parse_property
      (JSFunction [("type", JSString "int"); ("default", JSNumber 1);
                   ("comment", JSString "years")])
      "age" ∅.
Proof.
  apply (parse_property_reads_five_fields
           (JSObject [("name", JSString "age"); ("type", JSString "int");
                      ("default", JSNumber 1)])
           (JSFunction [("type", JSString "int"); ("default", JSNumber 1);
                        ("comment", JSString "years")])
           "age" ∅).
  - reflexivity.
  - reflexivity.
  - intros k Hk.
    repeat (apply elem_of_cons in Hk as [-> | Hk]; [reflexivity |]).
    by apply elem_of_nil in Hk.
Defined.

(** ** [parse_object_schema]: constructors and required fields *)

Lemma resolve_constructor_ok (object_schema_object : JSValue) (maps : Maps) :
  Value.is_object (schema_descriptor object_schema_object) = true →
  resolve_constructor object_schema_object maps
    = (Ok (if Value.is_constructor object_schema_object
           then Some object_schema_object else None,
           schema_descriptor object_schema_object), maps).
Proof.
  unfold resolve_constructor, schema_descriptor, bind, lift, ret,
    Object.validated_get_object, Value.validated_to_object, Value.to_constructor.
  destruct (Value.is_constructor object_schema_object); [| done].
  by intros ->.
Qed.

(** A successful [parse_object_schema], block by block. *)
Lemma parse_object_schema_inv (object_schema_object : JSValue) (maps maps' : Maps)
    (os : ObjectSchema) :
  parse_object_schema object_schema_object maps = (Ok os, maps') →
  ∃ parsed object_defaults,
    parse_name_and_properties (schema_descriptor object_schema_object) maps
      = (Ok (parsed, object_defaults), maps) ∧
    resolve_primary_key (schema_descriptor object_schema_object) parsed maps
      = (Ok os, maps) ∧
    maps'.1 = emplace (ObjectSchema.name os) object_defaults maps.1.
Proof.
  unfold parse_object_schema, bind.
  destruct (resolve_constructor _ maps) as [[[ctor descriptor] |] maps1] eqn:H1;
    [| discriminate].
  apply resolve_constructor_inv in H1 as [-> H1].
  assert (descriptor = schema_descriptor object_schema_object) as ->.
  { unfold schema_descriptor.
    by destruct (Value.is_constructor object_schema_object), H1. }
  destruct (parse_name_and_properties _ maps) as [[[os0 od] |] maps2] eqn:H2;
    [| discriminate].
  pose proof (parse_name_and_properties_state _ _ _ _ H2) as ->.
  destruct (resolve_primary_key _ os0 maps) as [[os1 |] maps3] eqn:H3;
    [| discriminate].
  pose proof (resolve_primary_key_state _ _ _ _ _ H3) as ->.
  rewrite commit_ok. intros [= <- <-]. by exists os0, od.
Qed.

(** X8. A constructor stands for its [schema] field. When that field is not
    an object the parse fails with "Realm object constructor must have a
    'schema' property." and the maps are as they were. When it is a plain
    descriptor, the constructor parses as the descriptor does, to the same
    ObjectSchema or the same exception and the same defaults, and on success
    the constructor is in addition emplaced under the name of the type. *)
Theorem parse_object_schema_constructor (constructor : JSValue) (maps : Maps) :
  Value.is_constructor constructor = true →
  let descriptor := Object.get_property constructor schema_string in
  (Value.is_object descriptor = false →
   parse_object_schema constructor maps
     = (Throw (invalid_argument
                 "Realm object constructor must have a 'schema' property."), maps)) ∧
  (Value.is_object descriptor = true → Value.is_constructor descriptor = false →
   parse_object_schema constructor maps
     = match parse_object_schema descriptor maps with
       | (Ok os, maps') =>
           (Ok os, (maps'.1, emplace (ObjectSchema.name os) constructor maps'.2))
       | (Throw e, maps') => (Throw e, maps')
       end).
Proof.
  intros Hc descriptor. split.
  - intros Hd. unfold parse_object_schema, resolve_constructor, bind, lift,
      Object.validated_get_object, Value.validated_to_object, Value.to_constructor.
    rewrite Hc. fold descriptor. by rewrite Hd.
  - intros Hd Hplain. unfold parse_object_schema, bind.
    rewrite resolve_constructor_ok
      by (unfold schema_descriptor; by rewrite Hc).
    rewrite (resolve_constructor_ok descriptor)
      by (unfold schema_descriptor; by rewrite Hplain).
    unfold schema_descriptor. rewrite Hc, Hplain. fold descriptor.
    destruct (parse_name_and_properties descriptor maps) as [[[os0 od] |] maps2];
      [| done].
    destruct (resolve_primary_key descriptor os0 maps2) as [[os1 |] maps3]; [| done].
    by rewrite !commit_ok.
Qed.

Lemma parse_object_schema_constructor_witness :
  parse_object_schema (JSFunction [("schema", dog_with_id)]) (∅, ∅)
  = match parse_object_schema dog_with_id (∅, ∅) with
    | (Ok os, maps') =>
        (Ok os,
         (maps'.1,
          emplace (ObjectSchema.name os) (JSFunction [("schema", dog_with_id)]) maps'.2))
    | (Throw e, maps') => (Throw e, maps')
    end.
Proof.
  apply (parse_object_schema_constructor (JSFunction [("schema", dog_with_id)]) (∅, ∅)).
  - reflexivity.
  - reflexivity.
  - reflexivity.
Defined.

(** X9. The name is required before the properties: a descriptor whose [name]
    field is not a string fails with the coercion error naming name, and one
    with a name whose [properties] field is not an object fails with
    "ObjectSchema must have a 'properties' object."; in both cases the maps are
    as they were. *)
Theorem parse_object_schema_required_fields (object_schema_object : JSValue)
    (maps : Maps) :
  let descriptor := schema_descriptor object_schema_object in
  Value.is_object descriptor = true →
  (Value.is_string (Object.get_property descriptor name_string) = false →
   parse_object_schema object_schema_object maps
     = (Throw (Value.type_error (Some "name") "string"), maps)) ∧
  (Value.is_string (Object.get_property descriptor name_string) = true →
   Value.is_object (Object.get_property descriptor properties_string) = false →
   parse_object_schema object_schema_object maps
     = (Throw (invalid_argument "ObjectSchema must have a 'properties' object."),
        maps)).
Proof.
  intros descriptor Hd.
  unfold parse_object_schema, bind. rewrite resolve_constructor_ok by done.
  fold descriptor.
  unfold parse_name_and_properties, bind, lift, Object.validated_get_string,
    Object.validated_get_object, Value.validated_to_object.
  split.
  - intros Hn. by destruct (Object.get_property descriptor name_string).
  - intros Hn Hp.
    destruct (Object.get_property descriptor name_string); try discriminate.
    simpl. by rewrite Hp.
Qed.

Lemma parse_object_schema_required_fields_witness :
  parse_object_schema (JSObject [("name", JSString "Dog"); ("properties", JSString "int")])
    ({["Cat" := ∅]}, ∅)
  = (Throw (invalid_argument "ObjectSchema must have a 'properties' object."),
     ({["Cat" := ∅]}, ∅)).
Proof.
  apply (parse_object_schema_required_fields
           (JSObject [("name", JSString "Dog"); ("properties", JSString "int")])
           ({["Cat" := ∅]}, ∅)).
  - reflexivity.
  - reflexivity.
  - reflexivity.
Defined.

(** ** [parse_object_schema]: the primary key of a returned ObjectSchema *)

(** X10. In every ObjectSchema [parse_object_schema] returns, at most one
    property is primary, and a primary property is named by [primary_key],
    which is then the [primaryKey] field of the declaration; when that field
    is absent or undefined, [primary_key] is empty and no property is
    primary. *)
Theorem parse_object_schema_primary_invariant (object_schema_object : JSValue)
    (maps maps' : Maps) (os : ObjectSchema) :
  parse_object_schema object_schema_object maps = (Ok os, maps') →
  let primary_value :=
    Object.get_property (schema_descriptor object_schema_object) primary_string in
  let properties := ObjectSchema.properties os in
  (∀ i j p q, properties !! i = Some p → properties !! j = Some q →
     Property.is_primary p = true → Property.is_primary q = true → i = j) ∧
  (∀ i p, properties !! i = Some p → Property.is_primary p = true →
     Property.name p = ObjectSchema.primary_key os ∧
     primary_value = JSString (ObjectSchema.primary_key os)) ∧
  (primary_value = JSUndefined →
   ObjectSchema.primary_key os = "" ∧
   Forall (λ p, Property.is_primary p = false) properties).
Proof.
  intros (parsed & od & H2 & H3 & _)%parse_object_schema_inv primary_value properties.
  apply parse_name_and_properties_inv in H2 as (_ & Hpk & Hprimary & _).
  apply resolve_primary_key_inv in H3
    as [[Hu ->] | (pk & k & pkp & Hs & Hfind & ->)]; subst properties; simpl.
  - assert (∀ i p, ObjectSchema.properties parsed !! i = Some p →
              Property.is_primary p = true → False) as Hnone.
    { intros i p Hp Ht.
      pose proof (Forall_lookup_1 _ _ _ _ Hprimary Hp) as Hf. simpl in Hf.
      congruence. }
    split; [intros i j p q Hp _ Ht; by destruct (Hnone i p) |].
    split; [intros i p Hp Ht; by destruct (Hnone i p) | done].
  - apply list_find_Some in Hfind as (Hk & Hname & _).
    assert (∀ i p, <[k := Property.set_is_primary true pkp]>
                     (ObjectSchema.properties parsed) !! i = Some p →
              Property.is_primary p = true → i = k) as Hat.
    { intros i p Hp Ht. destruct (decide (i = k)) as [| Hne]; [done |].
      rewrite list_lookup_insert_ne in Hp by done.
      pose proof (Forall_lookup_1 _ _ _ _ Hprimary Hp) as Hf. simpl in Hf.
      congruence. }
    split; [| split].
    + intros i j p q Hp Hq Htp Htq.
      by rewrite (Hat i p Hp Htp), (Hat j q Hq Htq).
    + intros i p Hp Ht. pose proof (Hat i p Hp Ht) as ->.
      rewrite list_lookup_insert_eq in Hp by by eapply lookup_lt_Some.
      injection Hp as <-. by split.
    + unfold primary_value. by rewrite Hs.
Qed.

Lemma parse_object_schema_primary_invariant_witness :
  ObjectSchema.primary_key (ObjectSchema.mk "T"
     [Property.mk "a" PropertyTypeInt "" false false false;
      Property.mk "a" PropertyTypeString "" false false false] "") = "" ∧
  Forall (λ p, Property.is_primary p = false)
    [Property.mk "a" PropertyTypeInt "" false false false;
     Property.mk "a" PropertyTypeString "" false false false].
Proof.
  apply (parse_object_schema_primary_invariant twice_a (∅, ∅) ({["T" := ∅]}, ∅)
           (ObjectSchema.mk "T"
              [Property.mk "a" PropertyTypeInt "" false false false;
               Property.mk "a" PropertyTypeString "" false false false] "")).
  - reflexivity.
  - reflexivity.
Defined.

(** ** [parse_object_schema]: what it writes into the maps *)

(** X11. [parse_object_schema] only ever adds to the caller's maps: whatever
    the outcome, every entry that was in them is still there with its value;
    and when the name of the parsed type is already taken in a map, that map
    is left exactly as it was, the earlier entry winning. *)
Theorem parse_object_schema_keeps_entries (object_schema_object : JSValue)
    (maps maps' : Maps) (r : Result ObjectSchema) :
  parse_object_schema object_schema_object maps = (r, maps') →
  maps.1 ⊆ maps'.1 ∧ maps.2 ⊆ maps'.2 ∧
  ∀ os, r = Ok os →
    (is_Some (maps.1 !! ObjectSchema.name os) → maps'.1 = maps.1) ∧
    (is_Some (maps.2 !! ObjectSchema.name os) → maps'.2 = maps.2).
Proof.
  intros H. pose proof (parse_object_schema_maps object_schema_object maps) as Hmaps.
  rewrite H in Hmaps. destruct r as [os | e].
  - destruct Hmaps as (od & H1 & H2). rewrite H1, H2.
    split; [apply emplace_subseteq |].
    split; [destruct (Value.is_constructor _); [apply emplace_subseteq | done] |].
    intros os' [= <-]. split; intros [v Hv]; unfold emplace.
    + by rewrite Hv.
    + destruct (Value.is_constructor _); [| done]. by rewrite Hv.
  - subst maps'. by repeat split.
Qed.

Lemma parse_object_schema_keeps_entries_witness :
  (parse_object_schema dog_with_id ({["Dog" := {["id" := JSNumber 0]}]}, ∅)).2.1
  = {["Dog" := {["id" := JSNumber 0]}]}.
Proof.
  destruct (parse_object_schema_keeps_entries dog_with_id
              ({["Dog" := {["id" := JSNumber 0]}]}, ∅)
              (parse_object_schema dog_with_id
                 ({["Dog" := {["id" := JSNumber 0]}]}, ∅)).2
              (parse_object_schema dog_with_id
                 ({["Dog" := {["id" := JSNumber 0]}]}, ∅)).1
              eq_refl) as (_ & _ & H).
  apply (H (ObjectSchema.mk "Dog"
              [Property.mk "id" PropertyTypeInt "" true false false;
               Property.mk "name" PropertyTypeString "" false false false] "id")).
  - reflexivity.
  - by eexists.
Defined.

(** The defaults the loop over a name-keyed mapping gathers: what was there,
    and for every name gone through that had no entry, its declared
    default. *)
Lemma for_each_keyed_defaults {St} (properties_object : JSValue) (names : list string)
    (os os' : ObjectSchema) (od od' : ObjectDefaults) (s s' : St) :
  NoDup names →
  for_each names
    (λ property_name locals,
       emplace_back_property (Object.get_property properties_object property_name)
         property_name locals)
    (os, od) s = (Ok (os', od'), s') →
  ∀ n, od' !! n =
    match od !! n with
    | Some kept => Some kept
    | None =>
        if decide (n ∈ names)
        then declared_default (Object.get_property properties_object n)
        else None
    end.
Proof.
  intros Hnd. revert os od s.
  induction Hnd as [| k names Hk Hnd IH]; intros os od s; cbn [for_each].
  - intros [= <- <- <-] n. by destruct (od !! n).
  - unfold bind at 1. cbn beta.
    destruct (emplace_back_property (Object.get_property properties_object k) k
                (os, od) s) as [[[os1 od1] |] s1] eqn:Hstep; [| discriminate].
    apply emplace_back_property_inv in Hstep as (p & Hp & ->).
    apply parse_property_result in Hp as (_ & _ & _ & _ & _ & ->).
    intros H n. rewrite (IH _ _ _ H n). clear IH H.
    destruct (decide (n = k)) as [-> | Hne].
    + rewrite (decide_True (P := k ∈ k :: names)) by apply list_elem_of_here.
      rewrite (decide_False (P := k ∈ names)) by done.
      destruct (declared_default _) as [v |]; unfold emplace;
        destruct (od !! k) eqn:Hod; rewrite ?Hod, ?lookup_insert_eq; done.
    + assert (match declared_default (Object.get_property properties_object k) with
              | Some v => emplace k v od
              | None => od
              end !! n = od !! n) as ->.
      { destruct (declared_default _); [| done]. unfold emplace.
        destruct (od !! k); [done |]. by rewrite lookup_insert_ne. }
      destruct (od !! n); [done |].
      destruct (decide (n ∈ names)) as [Hin | Hout].
      * by rewrite (decide_True (P := n ∈ k :: names))
          by by apply list_elem_of_further.
      * by rewrite (decide_False (P := n ∈ k :: names))
          by (rewrite elem_of_cons; intros [? | ?]; done).
Qed.

(** X12. The defaults of a type declared with a name-keyed mapping, as entered
    into the defaults map under a name that was free: one entry for every
    property whose descriptor has a [default] field that is not undefined,
    holding that value, and no entry for any other name (none at all when no
    property declares a default). *)
Theorem parse_object_schema_keyed_defaults (object_schema_object : JSValue)
    (maps maps' : Maps) (os : ObjectSchema) :
  parse_object_schema object_schema_object maps = (Ok os, maps') →
  let properties_object := declared_properties object_schema_object in
  Value.is_array properties_object = false →
  maps.1 !! ObjectSchema.name os = None →
  ∃ object_defaults,
    maps'.1 !! ObjectSchema.name os = Some object_defaults ∧
    ∀ n, object_defaults !! n =
      if decide (n ∈ Object.get_property_names properties_object)
      then declared_default (Object.get_property properties_object n)
      else None.
Proof.
  intros (parsed & od & H2 & _ & Hmaps)%parse_object_schema_inv po Harray Hfree.
  exists od. split.
  - rewrite Hmaps. unfold emplace. rewrite Hfree. by rewrite lookup_insert_eq.
  - unfold parse_name_and_properties, bind, lift in H2.
    destruct (Object.validated_get_string _ name_string) as [name |];
      [| discriminate].
    destruct (Object.validated_get_object _ properties_string _) as [po' |] eqn:Hpo;
      [| discriminate].
    apply validated_get_object_inv in Hpo as [-> _].
    fold (declared_properties object_schema_object) in H2. fold po in H2.
    unfold parse_properties in H2. rewrite Harray in H2.
    intros n.
    rewrite (for_each_keyed_defaults _ _ _ _ _ _ _ _
               (NoDup_get_property_names po Harray) H2 n).
    by rewrite lookup_empty.
Qed.

Lemma parse_object_schema_keyed_defaults_witness :
  ∃ object_defaults,
    (parse_object_schema dog_without_id_key (∅, ∅)).2.1 !! "Dog" = Some object_defaults ∧
    ∀ n, object_defaults !! n =
      if decide (n ∈ Object.get_property_names (declared_properties dog_without_id_key))
      then declared_default
             (Object.get_property (declared_properties dog_without_id_key) n)
      else None.
Proof.
  apply (parse_object_schema_keyed_defaults dog_without_id_key (∅, ∅)
           (parse_object_schema dog_without_id_key (∅, ∅)).2
           (ObjectSchema.mk "Dog"
              [Property.mk "age" PropertyTypeInt "" false false false;
               Property.mk "name" PropertyTypeString "" false false false] "")).
  - reflexivity.
  - reflexivity.
  - reflexivity.
Defined.

(** ** The parser does not read its output maps *)

Section independence.
Context {St : Type}.

Lemma independent_ret {A} (a : A) : state_independent (ret a : M St A).
Proof. by intros s1 s2. Qed.

Lemma independent_throw {A} (e : Exception) : state_independent (throw e : M St A).
Proof. by intros s1 s2. Qed.

Lemma independent_lift {A} (r : Result A) : state_independent (lift r : M St A).
Proof. by intros s1 s2. Qed.

Lemma independent_modify (f : St → St) : state_independent (modify f).
Proof. by intros s1 s2. Qed.

Lemma independent_with_local {L A} (m : M L A) (l : L) :
  state_independent (with_local m l : M St (A * L)).
Proof. intros s1 s2. unfold with_local. by destruct (m l) as [[a |] l']. Qed.

Lemma independent_bind {A B} (m : M St A) (f : A → M St B) :
  state_independent m → (∀ a, state_independent (f a)) →
  state_independent (bind m f).
Proof.
  intros Hm Hf s1 s2. unfold bind. specialize (Hm s1 s2).
  destruct (m s1) as [r1 s1'], (m s2) as [r2 s2']. simpl in Hm. subst r2.
  destruct r1 as [a |]; [apply Hf | done].
Qed.

Lemma independent_for_each {X Acc} (xs : list X) (body : X → Acc → M St Acc)
    (acc : Acc) :
  (∀ x acc, state_independent (body x acc)) →
  state_independent (for_each xs body acc).
Proof.
  intros Hbody. revert acc. induction xs as [| x xs IH]; intros acc; simpl.
  - apply independent_ret.
  - by apply independent_bind.
Qed.

Lemma independent_emplace_back_property (attributes : JSValue) (property_name : string)
    (locals : ObjectSchema * ObjectDefaults) :
  state_independent
    (emplace_back_property attributes property_name locals
       : M St (ObjectSchema * ObjectDefaults)).
Proof.
  destruct locals as [os od]. unfold emplace_back_property.
  apply independent_bind; [apply independent_with_local |].
  intros [prop od']. apply independent_ret.
Qed.

Lemma independent_parse_properties (properties_object : JSValue)
    (locals : ObjectSchema * ObjectDefaults) :
  state_independent
    (parse_properties properties_object locals : M St (ObjectSchema * ObjectDefaults)).
Proof.
  unfold parse_properties. destruct (Value.is_array properties_object).
  - apply independent_bind; [apply independent_lift |]. intros n.
    apply independent_for_each. intros i acc.
    apply independent_bind; [apply independent_lift |]. intros o.
    apply independent_bind; [apply independent_lift |]. intros name.
    apply independent_emplace_back_property.
  - apply independent_for_each. intros k acc.
    apply independent_emplace_back_property.
Qed.
End independence.

Lemma independent_parse_object_schema (object_schema_object : JSValue) :
  state_independent (parse_object_schema object_schema_object).
Proof.
  unfold parse_object_schema.
  apply independent_bind.
  { unfold resolve_constructor. destruct (Value.is_constructor _);
      [| apply independent_ret].
    apply independent_bind; [apply independent_lift |].
    intros o. apply independent_ret. }
  intros [ctor descriptor]. apply independent_bind.
  { unfold parse_name_and_properties.
    apply independent_bind; [apply independent_lift |]. intros name.
    apply independent_bind; [apply independent_lift |]. intros po.
    apply independent_parse_properties. }
  intros [os od]. apply independent_bind.
  { unfold resolve_primary_key. destruct (negb _); [| apply independent_ret].
    apply independent_bind; [apply independent_lift |]. intros pk.
    destruct (ObjectSchema.primary_key_property _) as [[i p] |];
      [apply independent_ret | apply independent_throw]. }
  intros os'. unfold commit. apply independent_bind.
  { destruct (Value.is_valid ctor);
      [apply independent_modify | apply independent_ret]. }
  intros _. apply independent_bind; [apply independent_modify |].
  intros _. apply independent_ret.
Qed.

(** X13. The parser writes to the caller's maps and never reads them: what
    [parse_object_schema] and [parse_schema] return, the value or the
    exception, is the same whatever the maps hold when they are called. *)
Theorem parse_result_ignores_maps (value : JSValue) (maps1 maps2 : Maps) :
  (parse_object_schema value maps1).1 = (parse_object_schema value maps2).1 ∧
  (parse_schema value maps1).1 = (parse_schema value maps2).1.
Proof.
  split; [apply independent_parse_object_schema |].
  unfold parse_schema.
  apply independent_bind; [apply independent_lift |]. intros n.
  apply independent_bind; [| intros schema; apply independent_ret].
  apply independent_for_each. intros i schema.
  apply independent_bind; [apply independent_lift |]. intros o.
  apply independent_bind; [apply independent_parse_object_schema |].
  intros os. apply independent_ret.
Qed.

(** ** [parse_schema]: order and composition *)

(** The loop of [parse_schema] appends to what it is given. *)
Lemma for_each_parse_element_acc (elements : list JSValue) (acc : list ObjectSchema)
    (maps : Maps) :
  for_each elements parse_element acc maps =
    match for_each elements parse_element [] maps with
    | (Ok new, maps') => (Ok (acc ++ new)%list, maps')
    | (Throw e, maps') => (Throw e, maps')
    end.
Proof.
  revert acc maps. induction elements as [| d elements IH]; intros acc maps.
  - simpl. by rewrite app_nil_r.
  - cbn [for_each]. unfold bind at 1 2. unfold parse_element, bind, lift, ret.
    destruct (Value.validated_to_object d None) as [o |]; [| done].
    destruct (parse_object_schema o maps) as [[os |] maps1]; [| done].
    rewrite (IH (acc ++ [os])%list), (IH ([] ++ [os])%list).
    destruct (for_each elements parse_element [] maps1) as [[new |] maps2];
      [| done].
    by rewrite <- app_assoc.
Qed.

Lemma parse_element_inv (d : JSValue) (acc acc' : list ObjectSchema)
    (maps maps' : Maps) :
  parse_element d acc maps = (Ok acc', maps') →
  ∃ os, Value.is_object d = true ∧
    parse_object_schema d maps = (Ok os, maps') ∧ acc' = (acc ++ [os])%list.
Proof.
  unfold parse_element, bind, lift, ret.
  destruct (Value.validated_to_object d None) as [o |] eqn:Ho; [| discriminate].
  apply validated_to_object_inv in Ho as [-> Ho].
  destruct (parse_object_schema d maps) as [[os |] maps1]; [| discriminate].
  intros [= <- <-]. by exists os.
Qed.

(** The first round of the loop of [parse_schema], and the rest. *)
Lemma for_each_parse_element_cons (d : JSValue) (elements : list JSValue)
    (new : list ObjectSchema) (maps maps' : Maps) :
  for_each (d :: elements) parse_element [] maps = (Ok new, maps') →
  ∃ os rest maps1,
    Value.is_object d = true ∧
    parse_object_schema d maps = (Ok os, maps1) ∧
    for_each elements parse_element [] maps1 = (Ok rest, maps') ∧
    new = os :: rest.
Proof.
  cbn [for_each]. unfold bind at 1.
  destruct (parse_element d [] maps) as [[acc1 |] maps1] eqn:Hd; [| discriminate].
  apply parse_element_inv in Hd as (os & Hobj & Hos & ->).
  rewrite for_each_parse_element_acc.
  destruct (for_each elements parse_element [] maps1) as [[rest |] maps2] eqn:Hrest;
    [| discriminate].
  intros [= <- <-]. by exists os, rest, maps1.
Qed.

(** X14. [parse_schema] hands the Schema constructor one ObjectSchema per
    declaration, in the order of the declarations: the i-th is what
    [parse_object_schema] returns for the i-th declaration (from any maps),
    and every declaration is an object. *)
Theorem parse_schema_in_order (declarations : list JSValue) (maps maps' : Maps)
    (schema : Schema) :
  parse_schema (JSArray declarations) maps = (Ok schema, maps') →
  ∃ parsed,
    schema = make_Schema parsed ∧
    Forall2 (λ d os,
               Value.is_object d = true ∧
               ∀ any, (parse_object_schema d any).1 = Ok os)
      declarations parsed.
Proof.
  rewrite parse_schema_array.
  destruct (for_each declarations parse_element [] maps) as [[parsed |] maps1] eqn:H;
    [| discriminate].
  intros [= <- <-]. exists parsed. split; [done |].
  revert parsed maps H. induction declarations as [| d declarations IH];
    intros parsed maps.
  - intros [= <- <-]. constructor.
  - intros (os & rest & maps2 & Hobj & Hos & Hrest & ->)%for_each_parse_element_cons.
    constructor; [| by eapply IH]. split; [done |]. intros any.
    rewrite (independent_parse_object_schema d any maps). by rewrite Hos.
Qed.

Lemma parse_schema_in_order_witness :
  ∃ parsed,
    [ObjectSchema.mk "T"
       [Property.mk "a" PropertyTypeInt "" false false false;
        Property.mk "a" PropertyTypeString "" false false false] "";
     ObjectSchema.mk "Dog"
       [Property.mk "id" PropertyTypeInt "" true false false;
        Property.mk "name" PropertyTypeString "" false false false] "id"]
    = make_Schema parsed ∧
    Forall2 (λ d os,
               Value.is_object d = true ∧
               ∀ any, (parse_object_schema d any).1 = Ok os)
      [twice_a; dog_with_id] parsed.
Proof.
  apply (parse_schema_in_order [twice_a; dog_with_id] (∅, ∅)
           (parse_schema (JSArray [twice_a; dog_with_id]) (∅, ∅)).2).
  reflexivity.
Defined.

(** X15. Declarations are parsed in sequence: when the declarations [xs]
    parse, parsing [xs] followed by [ys] is parsing [ys] from the maps [xs]
    left, with the ObjectSchemas of [xs] in front on success and the exception
    of [ys], with the maps as they are then, on failure. *)
Theorem parse_schema_app (xs ys : list JSValue) (maps maps1 : Maps)
    (parsed : list ObjectSchema) :
  parse_schema (JSArray xs) maps = (Ok (make_Schema parsed), maps1) →
  parse_schema (JSArray (xs ++ ys)) maps =
    match parse_schema (JSArray ys) maps1 with
    | (Ok more, maps2) => (Ok (make_Schema (parsed ++ more)), maps2)
    | (Throw e, maps2) => (Throw e, maps2)
    end.
Proof.
  rewrite !parse_schema_array.
  destruct (for_each xs parse_element [] maps) as [[parsed0 |] maps0] eqn:Hxs;
    [| discriminate].
  intros [= Hparsed <-]. unfold make_Schema in Hparsed. subst parsed0.
  rewrite for_each_app, Hxs, for_each_parse_element_acc.
  by destruct (for_each ys parse_element [] maps0) as [[more |] maps2].
Qed.

Lemma parse_schema_app_witness :
  parse_schema (JSArray ([twice_a] ++ [dog_with_id; dog_without_id])) (∅, ∅) =
    match parse_schema (JSArray [dog_with_id; dog_without_id]) ({["T" := ∅]}, ∅) with
    | (Ok more, maps2) =>
        (Ok (make_Schema
               ([ObjectSchema.mk "T"
                   [Property.mk "a" PropertyTypeInt "" false false false;
                    Property.mk "a" PropertyTypeString "" false false false] ""]
                ++ more)), maps2)
    | (Throw e, maps2) => (Throw e, maps2)
    end.
Proof.
  apply (parse_schema_app [twice_a] [dog_with_id; dog_without_id] (∅, ∅)
           ({["T" := ∅]}, ∅)
           [ObjectSchema.mk "T"
              [Property.mk "a" PropertyTypeInt "" false false false;
               Property.mk "a" PropertyTypeString "" false false false] ""]).
  reflexivity.
Defined.

(** ** [parse_schema]: the keys of the maps *)

Lemma emplace_is_Some_iff {V} (key key' : string) (value : V) (m : gmap string V) :
  is_Some (emplace key value m !! key') ↔ is_Some (m !! key') ∨ key' = key.
Proof.
  unfold emplace. destruct (m !! key) eqn:Hk.
  - split; [by left |]. intros [H | ->]; [done | by rewrite Hk].
  - destruct (decide (key = key')) as [-> | Hne].
    + rewrite lookup_insert_eq. split; [by right | done].
    + rewrite lookup_insert_ne by done. split; [by left |].
      by intros [H | ->].
Qed.

Lemma for_each_parse_element_keys (elements : list JSValue) (new : list ObjectSchema)
    (maps maps' : Maps) :
  for_each elements parse_element [] maps = (Ok new, maps') →
  ∀ k,
    (is_Some (maps'.1 !! k) ↔
     is_Some (maps.1 !! k) ∨ ∃ os, os ∈ new ∧ ObjectSchema.name os = k) ∧
    (is_Some (maps'.2 !! k) ↔
     is_Some (maps.2 !! k) ∨
     ∃ i d os, elements !! i = Some d ∧ new !! i = Some os ∧
       Value.is_constructor d = true ∧ ObjectSchema.name os = k).
Proof.
  revert new maps. induction elements as [| d elements IH]; intros new maps.
  - intros [= <- <-] k. split; (split; [by left |]).
    + by intros [H | (os & Hos%elem_of_nil & _)].
    + by intros [H | (i & d & os & Hd & _)].
  - intros (os & rest & maps1 & _ & Hos & Hrest & ->)%for_each_parse_element_cons k.
    specialize (IH _ _ Hrest k) as [IH1 IH2].
    pose proof (parse_object_schema_maps d maps) as Hmaps. rewrite Hos in Hmaps.
    destruct Hmaps as (od & Hm1 & Hm2). rewrite Hm1 in IH1. rewrite Hm2 in IH2.
    rewrite emplace_is_Some_iff in IH1. split.
    + rewrite IH1. split.
      * intros [[H | ->] | (os' & Hin & Hname)]; [by left | |].
        -- right. exists os. split; [apply list_elem_of_here | done].
        -- right. exists os'. split; [by apply list_elem_of_further | done].
      * intros [H | (os' & [-> | Hin]%elem_of_cons & Hname)].
        -- by left; left.
        -- by left; right.
        -- right. by exists os'.
    + rewrite IH2. clear IH1 IH2. split.
      * intros [H | (i & d' & os' & Hd & Hnew & Hc & Hname)].
        -- destruct (Value.is_constructor d) eqn:Hcd; [| by left].
           apply emplace_is_Some_iff in H as [H | ->]; [by left |].
           right. by exists 0%nat, d, os.
        -- right. by exists (Datatypes.S i), d', os'.
      * intros [H | (i & d' & os' & Hd & Hnew & Hc & Hname)].
        -- left. destruct (Value.is_constructor d); [| done].
           apply emplace_is_Some_iff. by left.
        -- destruct i as [| i]; simpl in Hd, Hnew.
           ++ injection Hd as <-. injection Hnew as <-. left. rewrite Hc.
              apply emplace_is_Some_iff. by right.
           ++ right. by exists i, d', os'.
Qed.

(** X16. After a successful [parse_schema] the defaults map has an entry
    under the name of every parsed type, the constructor map has one under the
    name of every type that was declared by a constructor, and neither has any
    other key that it did not have before. *)
Theorem parse_schema_map_keys (declarations : list JSValue) (maps maps' : Maps)
    (parsed : list ObjectSchema) :
  parse_schema (JSArray declarations) maps = (Ok (make_Schema parsed), maps') →
  ∀ k,
    (is_Some (maps'.1 !! k) ↔
     is_Some (maps.1 !! k) ∨ ∃ os, os ∈ parsed ∧ ObjectSchema.name os = k) ∧
    (is_Some (maps'.2 !! k) ↔
     is_Some (maps.2 !! k) ∨
     ∃ i d os, declarations !! i = Some d ∧ parsed !! i = Some os ∧
       Value.is_constructor d = true ∧ ObjectSchema.name os = k).
Proof.
  rewrite parse_schema_array.
  destruct (for_each declarations parse_element [] maps) as [[new |] maps1] eqn:H;
    [| discriminate].
  intros [= Hparsed <-]. unfold make_Schema in Hparsed. subst new.
  by apply for_each_parse_element_keys.
Qed.

Lemma parse_schema_map_keys_witness :
  (is_Some ((parse_schema (JSArray [JSFunction [("schema", twice_a)]; dog_with_id])
               (∅, ∅)).2.2 !! "Dog") ↔
   is_Some ((∅ : ConstructorMap) !! "Dog") ∨
   ∃ i d os,
     [JSFunction [("schema", twice_a)]; dog_with_id] !! i = Some d ∧
     [ObjectSchema.mk "T"
        [Property.mk "a" PropertyTypeInt "" false false false;
         Property.mk "a" PropertyTypeString "" false false false] "";
      ObjectSchema.mk "Dog"
        [Property.mk "id" PropertyTypeInt "" true false false;
         Property.mk "name" PropertyTypeString "" false false false] "id"] !! i
       = Some os ∧
     Value.is_constructor d = true ∧ ObjectSchema.name os = "Dog").
Proof.
  apply (parse_schema_map_keys [JSFunction [("schema", twice_a)]; dog_with_id] (∅, ∅)
           (parse_schema (JSArray [JSFunction [("schema", twice_a)]; dog_with_id])
              (∅, ∅)).2
           [ObjectSchema.mk "T"
              [Property.mk "a" PropertyTypeInt "" false false false;
               Property.mk "a" PropertyTypeString "" false false false] "";
            ObjectSchema.mk "Dog"
              [Property.mk "id" PropertyTypeInt "" true false false;
               Property.mk "name" PropertyTypeString "" false false false] "id"]).
  reflexivity.
Defined.

(** ** [parse_object_schema]: a primary key that is not a string *)

(** X18. On a declaration whose name and properties parse, a [primaryKey]
    field that is present and not a string is rejected by the string coercion,
    whether or not a property could match it, and the maps are as they
    were. *)
Theorem parse_object_schema_primary_key_not_string
    (object_schema_object : JSValue) (parsed : ObjectSchema)
    (object_defaults : ObjectDefaults) (maps : Maps) :
  let descriptor := schema_descriptor object_schema_object in
  parse_name_and_properties descriptor maps = (Ok (parsed, object_defaults), maps) →
  Value.is_object descriptor = true →
  Value.is_undefined (Object.get_property descriptor primary_string) = false →
  Value.is_string (Object.get_property descriptor primary_string) = false →
  parse_object_schema object_schema_object maps
    = (Throw (Value.type_error None "string"), maps).
Proof.
  intros descriptor H2 Hd Hu Hs. unfold parse_object_schema, bind.
  rewrite resolve_constructor_ok by done. fold descriptor. rewrite H2.
  unfold resolve_primary_key, bind, lift. rewrite Hu. simpl.
  by destruct (Object.get_property descriptor primary_string).
Qed.

Lemma parse_object_schema_primary_key_not_string_witness :
  parse_object_schema
    (JSObject [("name", JSString "Dog");
               ("properties", JSObject [("1", JSString "int")]);
               ("primaryKey", JSNumber 1)])
    (∅, ∅)
  = (Throw (Value.type_error None "string"), (∅, ∅)).
Proof.
  apply (parse_object_schema_primary_key_not_string
           (JSObject [("name", JSString "Dog");
                      ("properties", JSObject [("1", JSString "int")]);
                      ("primaryKey", JSNumber 1)])
           (ObjectSchema.mk "Dog"
              [Property.mk "1" PropertyTypeInt "" false false false] "")
           ∅ (∅, ∅)).
  - reflexivity.
  - reflexivity.
  - reflexivity.
  - reflexivity.
Defined.

(** ** [dict_for_property_array] on a parsed type *)

Lemma dict_for_property_array_unique (os : ObjectSchema) (array : JSValue) :
  NoDup (Property.name <$> ObjectSchema.properties os) →
  Object.validated_get_length array = Ok (length (ObjectSchema.properties os)) →
  ∃ dict,
    dict_for_property_array os array = Ok dict ∧
    Object.get_property_names dict = Property.name <$> ObjectSchema.properties os ∧
    ∀ i p, ObjectSchema.properties os !! i = Some p →
      Object.get_property dict (Property.name p) = Object.get_property_at array i.
Proof.
  intros Hnd Hlen. unfold dict_for_property_array. rewrite Hlen, Nat.eqb_refl. simpl.
  destruct (dict_loop (ObjectSchema.properties os) array
              (length (ObjectSchema.properties os)))
    as (fields & -> & Hnames & Hvalues); [done |].
  rewrite firstn_all in Hnames. eexists. split; [reflexivity |]. simpl. split.
  - rewrite Hnames, (unique_names_NoDup _ Hnd). by apply unique_names_NoDup.
  - intros i p Hp. apply Hvalues; [by eapply lookup_lt_Some | done |].
    intros j q Hj Hq Heq. assert (i = j); [| lia].
    eapply (NoDup_lookup _ _ _ _ Hnd); rewrite list_lookup_fmap;
      [by rewrite Hp | rewrite Hq; simpl; by rewrite Heq].
Qed.

(** X17. A type declared with a name-keyed mapping always converts positional
    values well: for an array of as many values as the type has properties,
    [dict_for_property_array] on the parsed ObjectSchema returns the mapping
    whose fields are the declared field names in their order, the i-th of them
    mapped to the i-th value. *)
Theorem dict_for_keyed_schema (object_schema_object array : JSValue)
    (maps maps' : Maps) (os : ObjectSchema) :
  parse_object_schema object_schema_object maps = (Ok os, maps') →
  let properties_object := declared_properties object_schema_object in
  Value.is_array properties_object = false →
  Object.validated_get_length array
    = Ok (length (Object.get_property_names properties_object)) →
  ∃ dict,
    dict_for_property_array os array = Ok dict ∧
    Object.get_property_names dict = Object.get_property_names properties_object ∧
    ∀ i n, Object.get_property_names properties_object !! i = Some n →
      Object.get_property dict n = Object.get_property_at array i.
Proof.
  intros H po Harray Hlen.
  apply parse_object_schema_names_inv in H. fold po in H. rewrite Harray in H.
  destruct (dict_for_property_array_unique os array) as (dict & Hdict & Hnames & Hvalues).
  - rewrite H. by apply NoDup_get_property_names.
  - by rewrite Hlen, <- H, length_fmap.
  - exists dict. split; [done |]. split; [by rewrite Hnames |].
    intros i n Hn. rewrite <- H, list_lookup_fmap in Hn.
    destruct (ObjectSchema.properties os !! i) as [p |] eqn:Hp; [| done].
    injection Hn as <-. by apply Hvalues.
Qed.

Lemma dict_for_keyed_schema_witness :
  ∃ dict,
    dict_for_property_array
      (ObjectSchema.mk "Dog"
         [Property.mk "id" PropertyTypeInt "" true false false;
          Property.mk "name" PropertyTypeString "" false false false] "id")
      (JSArray [JSNumber 7; JSString "Rex"]) = Ok dict ∧
    Object.get_property_names dict
      = Object.get_property_names (declared_properties dog_with_id) ∧
    ∀ i n, Object.get_property_names (declared_properties dog_with_id) !! i = Some n →
      Object.get_property dict n
        = Object.get_property_at (JSArray [JSNumber 7; JSString "Rex"]) i.
Proof.
  apply (dict_for_keyed_schema dog_with_id (JSArray [JSNumber 7; JSString "Rex"])
           (∅, ∅) ({["Dog" := ∅]}, ∅)
           (ObjectSchema.mk "Dog"
              [Property.mk "id" PropertyTypeInt "" true false false;
               Property.mk "name" PropertyTypeString "" false false false] "id")).
  - reflexivity.
  - reflexivity.
  - reflexivity.
Defined.
